(** * Crystals of the Canopy: scene machine, fixed-step loop and game scene

    A shallow embedding of [src/game.js].  The file holds two near-duplicate
    programs: the fixed-resolution one (lines 1-211, world 800x600, the game
    scene's [enter] is empty) and the dynamic-resolution one (lines 212-418,
    world = window size, [enter] re-initialises the scene).  Both are embedded
    at once: every function that differs between them takes the [Variant].

    Modelling choices.
    - The clock of the main loop (the timestamps, [accumulator], [fpsTimer]
      and [FIXED_DT]) is modelled in binary64, as JavaScript computes it:
      each sum, difference and quotient is rounded, and the comparisons are
      those of IEEE 754.  How many fixed steps a frame runs depends on that
      rounding.
    - Positions, sizes and speeds are modelled as real numbers: their
      rounding, of the order of one unit in the last place, is outside the
      model.  The step [FIXED_DT / 1000], computed in binary64, reaches the
      scenes as the real number it denotes.  [score] only ever holds integers
      and is an integer here.
    - The module-level variables and the closure variables of
      [createGameScene] are the fields of one record, [World], threaded
      through every function (explicit state passing).
    - [Math.random] reads the next element of a sequence kept in the state.
    - Drawing (canvas calls) has no effect on the state and is left out.
    - [trace] is a ghost field: it records which hooks and updates were
      invoked, in order, so that claims about invocation order can be stated. *)

From Stdlib Require Import Floats.
From Stdlib Require Import Reals Lra Lia ZArith List String Bool.
Import ListNotations.
Open Scope R_scope.

(** ** Numbers *)

(** [a < b] on real numbers, as a boolean. *)
Definition Rltb (a b : R) : bool := if Rlt_dec a b then true else false.

(** A boolean used as a number ([true - false] is [1]). *)
Definition b2r (b : bool) : R := if b then 1 else 0.

(** [Math.hypot] on two arguments. *)
Definition hypot (a b : R) : R := sqrt (a * a + b * b).

(** [v || d] on numbers: [0] is the falsy number. *)
Definition or_else (v d : R) : R := if Req_dec_T v 0 then d else v.

(** ** Binary64 numbers *)

(** A double that is finite and not negative (a zero of either sign
    included). *)
Definition SFnonneg (sf : spec_float) : Prop :=
  match sf with
  | S754_zero _ => True
  | S754_finite false _ _ => True
  | _ => False
  end.

(** Every finite double is a whole number of times [2^-1074], the smallest
    positive double: [SFulps] is that whole number (0 for NaN and the
    infinities). *)
Definition SFulps (sf : spec_float) : Z :=
  match sf with
  | S754_finite s m e => cond_Zopp s (Z.pos m * 2 ^ (e + 1074))%Z
  | _ => 0%Z
  end.

Definition ulps (x : float) : Z := SFulps (Prim2SF x).

(** The real number a finite double denotes. *)
Definition float_to_R (x : float) : R := IZR (ulps x) / IZR (2 ^ 1074).

(** ** Data *)

Module Rect.
Record t := mk { x : R; y : R; w : R; h : R }.
End Rect.

(** A coin is a bare rectangle [{x, y, w, h}]. *)
Abbreviation Coin := Rect.t (only parsing).

Record Player := mkPlayer { box :> Rect.t; speed : R; color : string }.

Record Mouse := mkMouse { mouse_x : R; mouse_y : R; down : bool }.

(** [input.keys] is a [Set] of key names; only [add], [delete] and [has]
    are used, so a duplicate-free list in insertion order stands for it. *)
Record Input := mkInput { keys : list string; mouse : Mouse }.

Definition has (ks : list string) (k : string) : bool :=
  existsb (String.eqb k) ks.

Definition add (ks : list string) (k : string) : list string :=
  if has ks k then ks else ks ++ [k].

Definition delete (ks : list string) (k : string) : list string :=
  filter (fun k' => negb (String.eqb k k')) ks.

Inductive SceneName := menu | game | pause.

Definition SceneName_eq_dec (a b : SceneName) : {a = b} + {a <> b}.
Proof. decide equality. Defined.

Inductive Variant := FixedRes | DynamicRes.

(** The closure state of [createGameScene]. *)
Record GameScene := mkGameScene {
  player : Player;
  coins : list Coin;
  score : Z
}.

(** [last], [accumulator], [frames], [fpsTimer] and the text of [fpsEl]. *)
Record Timing := mkTiming {
  last : float;
  accumulator : float;
  frames : Z;
  fpsTimer : float;
  fpsEl : Z
}.

(** The sequence [Math.random] draws from, and how far it has been read. *)
Record Rng := mkRng { rand_seq : nat -> R; rand_pos : nat }.

Inductive Event :=
| Exit (s : SceneName)
| Enter (s : SceneName)
| Update (s : SceneName) (dt : float).

Record World := mkWorld {
  WIDTH : R;
  HEIGHT : R;
  input : Input;
  gs : GameScene;
  current : SceneName;
  stateEl : SceneName;
  timing : Timing;
  rng : Rng;
  trace : list Event
}.

Definition set_gs (g : GameScene) (st : World) : World :=
  mkWorld (WIDTH st) (HEIGHT st) (input st) g (current st) (stateEl st)
          (timing st) (rng st) (trace st).

Definition set_current (c : SceneName) (st : World) : World :=
  mkWorld (WIDTH st) (HEIGHT st) (input st) (gs st) c (stateEl st)
          (timing st) (rng st) (trace st).

Definition set_stateEl (c : SceneName) (st : World) : World :=
  mkWorld (WIDTH st) (HEIGHT st) (input st) (gs st) (current st) c
          (timing st) (rng st) (trace st).

Definition set_timing (t : Timing) (st : World) : World :=
  mkWorld (WIDTH st) (HEIGHT st) (input st) (gs st) (current st) (stateEl st)
          t (rng st) (trace st).

Definition set_rng (g : Rng) (st : World) : World :=
  mkWorld (WIDTH st) (HEIGHT st) (input st) (gs st) (current st) (stateEl st)
          (timing st) g (trace st).

Definition log (e : Event) (st : World) : World :=
  mkWorld (WIDTH st) (HEIGHT st) (input st) (gs st) (current st) (stateEl st)
          (timing st) (rng st) (trace st ++ [e]).

Definition set_accumulator (a : float) (t : Timing) : Timing :=
  mkTiming (last t) a (frames t) (fpsTimer t) (fpsEl t).

(** ** World geometry *)

Definition BASE_WIDTH : R := 800.
Definition BASE_HEIGHT : R := 600.

(** The width and height the scene code reads: the constants of the
    fixed-resolution program, the variables of the dynamic one. *)
Definition worldWidth (v : Variant) (st : World) : R :=
  match v with FixedRes => BASE_WIDTH | DynamicRes => WIDTH st end.

Definition worldHeight (v : Variant) (st : World) : R :=
  match v with FixedRes => BASE_HEIGHT | DynamicRes => HEIGHT st end.

(** ** Helpers *)

Definition rectsOverlap (a b : Rect.t) : bool :=
  Rltb (Rect.x a) (Rect.x b + Rect.w b) &&
  Rltb (Rect.x b) (Rect.x a + Rect.w a) &&
  Rltb (Rect.y a) (Rect.y b + Rect.h b) &&
  Rltb (Rect.y b) (Rect.y a + Rect.h a).

Definition Math_random (st : World) : R * World :=
  let g := rng st in
  (rand_seq g (rand_pos g), set_rng (mkRng (rand_seq g) (S (rand_pos g))) st).

(** The body of [spawnCoins]'s loop runs [n] times, pushing onto [arr]. *)
Fixpoint spawnCoins_loop (v : Variant) (n : nat) (arr : list Coin) (st : World)
  : list Coin * World :=
  match n with
  | O => (arr, st)
  | S n' =>
    let '(rx, st1) := Math_random st in
    let '(ry, st2) := Math_random st1 in
    let c := Rect.mk (rx * (worldWidth v st2 - 16))
                     (ry * (worldHeight v st2 - 16)) 12 12 in
    spawnCoins_loop v n' (arr ++ [c]) st2
  end.

Definition spawnCoins (v : Variant) (n : nat) (st : World) : list Coin * World :=
  spawnCoins_loop v n [] st.

(** ** Scene hooks and the scene registry *)

Definition menu_enter (st : World) : World := st.
Definition menu_exit (st : World) : World := st.
Definition pause_enter (st : World) : World := st.
Definition pause_exit (st : World) : World := st.
Definition game_exit (st : World) : World := st.

Definition move_to (nx ny : R) (p : Player) : Player :=
  mkPlayer (Rect.mk nx ny (Rect.w p) (Rect.h p)) (speed p) (color p).

(** [enter] of the game scene: empty at line 144, a reset at lines 346-351. *)
Definition game_enter (v : Variant) (st : World) : World :=
  match v with
  | FixedRes => st
  | DynamicRes =>
    let '(cs, st1) := spawnCoins v 10 st in
    let p := move_to (WIDTH st1 / 2) (HEIGHT st1 / 2) (player (gs st1)) in
    set_gs (mkGameScene p cs 0%Z) st1
  end.

(** [scenes[name].enter] and [scenes[name].exit]; every scene has both. *)
Definition scene_enter (v : Variant) (name : SceneName)
  : option (World -> World) :=
  match name with
  | menu => Some menu_enter
  | game => Some (game_enter v)
  | pause => Some pause_enter
  end.

Definition scene_exit (name : SceneName) : option (World -> World) :=
  match name with
  | menu => Some menu_exit
  | game => Some game_exit
  | pause => Some pause_exit
  end.

(** [hook?.()]: call the hook when the scene has it. *)
Definition call_hook (e : Event) (hook : option (World -> World)) (st : World)
  : World :=
  match hook with
  | Some f => f (log e st)
  | None => st
  end.

Definition setScene (v : Variant) (name : SceneName) (st : World) : World :=
  if SceneName_eq_dec name (current st) then st
  else
    let st1 := call_hook (Exit (current st)) (scene_exit (current st)) st in
    let st2 := set_current name st1 in
    let st3 := call_hook (Enter (current st2)) (scene_enter v (current st2)) st2 in
    set_stateEl (current st3) st3.

(** ** Scene updates *)

Definition menu_update (v : Variant) (dt : R) (st : World) : World :=
  if has (keys (input st)) "Enter" || down (mouse (input st))
  then setScene v game st else st.

Definition pause_update (v : Variant) (dt : R) (st : World) : World :=
  if has (keys (input st)) "Escape" then setScene v game st else st.

(** [ax] and [ay] of the game scene's [update]: a difference of booleans. *)
Definition input_ax (ks : list string) : R :=
  b2r (has ks "ArrowRight" || has ks "d") - b2r (has ks "ArrowLeft" || has ks "a").

Definition input_ay (ks : list string) : R :=
  b2r (has ks "ArrowDown" || has ks "s") - b2r (has ks "ArrowUp" || has ks "w").

(** [len = Math.hypot(ax, ay) || 1]. *)
Definition input_len (ks : list string) : R :=
  or_else (hypot (input_ax ks) (input_ay ks)) 1.

(** What one update adds to [player.x] and to [player.y]. *)
Definition displacement (ks : list string) (spd dt : R) : R * R :=
  ((input_ax ks / input_len ks) * spd * dt,
   (input_ay ks / input_len ks) * spd * dt).

(** [arr.splice(i, 1)]. *)
Definition splice1 {A : Type} (l : list A) (i : nat) : list A :=
  firstn i l ++ skipn (S i) l.

(** The coin loop, [for (let i = coins.length - 1; i >= 0; i--)], with
    [n = i + 1] iterations left.  An index outside the array would make
    [coins[i]] undefined and [rectsOverlap] throw: that is [None]. *)
Fixpoint collect_loop (n : nat) (p : Rect.t) (cs : list Coin) (sc : Z)
  : option (list Coin * Z) :=
  match n with
  | O => Some (cs, sc)
  | S i =>
    match nth_error cs i with
    | Some c =>
      if rectsOverlap p c
      then collect_loop i p (splice1 cs i) (sc + 10)%Z
      else collect_loop i p cs sc
    | None => None
    end
  end.

(** The first half of the game scene's [update]: the player after the move
    and the clamp to the world. *)
Definition move_player (v : Variant) (dt : R) (st : World) : Player :=
  let p := player (gs st) in
  let '(dx, dy) := displacement (keys (input st)) (speed p) dt in
  let x1 := Rect.x p + dx in
  let y1 := Rect.y p + dy in
  let x2 := Rmax 0 (Rmin (worldWidth v st - Rect.w p) x1) in
  let y2 := Rmax 0 (Rmin (worldHeight v st - Rect.h p) y1) in
  move_to x2 y2 p.

(** [update] of the game scene: move, collect, then the two transitions.
    The coin loop starts at the last index and never reads outside the array
    ([collect_loop_eq] below), so the [None] branch is never taken. *)
Definition game_update (v : Variant) (dt : R) (st : World) : World :=
  let p2 := move_player v dt st in
  match collect_loop (List.length (coins (gs st))) p2 (coins (gs st)) (score (gs st)) with
  | Some (cs, sc) =>
    let st1 := set_gs (mkGameScene p2 cs sc) st in
    let st2 := if has (keys (input st)) "Escape" then setScene v pause st1 else st1 in
    if (List.length (coins (gs st2)) =? 0)%nat then setScene v menu st2 else st2
  | None => st
  end.

(** [scenes[name].update(dt)]. *)
Definition scene_update (v : Variant) (name : SceneName) (dt : R) (st : World)
  : World :=
  match name with
  | menu => menu_update v dt st
  | game => game_update v dt st
  | pause => pause_update v dt st
  end.

(** ** The main loop *)

(** [const FIXED_DT = 1000 / 60], the double 16.666666666666668. *)
Definition FIXED_DT : float := (1000 / 60)%float.

(** One pass through the body of the fixed-step [while]:
    [scenes[current].update(FIXED_DT / 1000); accumulator -= FIXED_DT]. *)
Definition fixed_step (v : Variant) (st : World) : World :=
  let dt := (FIXED_DT / 1000)%float in
  let st1 := scene_update v (current st) (float_to_R dt)
                          (log (Update (current st) dt) st) in
  set_timing (set_accumulator (accumulator (timing st1) - FIXED_DT)%float
                              (timing st1)) st1.

(** [while (accumulator >= FIXED_DT) { ... }]; [None] when [fuel] passes
    through the body were not enough to leave the loop. *)
Fixpoint fixed_steps (v : Variant) (fuel : nat) (st : World) : option World :=
  if PrimFloat.leb FIXED_DT (accumulator (timing st)) then
    match fuel with
    | O => None
    | S f => fixed_steps v f (fixed_step v st)
    end
  else Some st.

(** [loop(now)] up to the draw call. *)
Definition loop (v : Variant) (fuel : nat) (now : float) (st : World)
  : option World :=
  let t := timing st in
  let delta := (now - last t)%float in
  let acc := (accumulator t + delta)%float in
  let timer := (fpsTimer t + delta)%float in
  let fr := (frames t + 1)%Z in
  let t1 := if PrimFloat.leb 1000 timer
            then mkTiming now acc 0 0 fr
            else mkTiming now acc fr timer (fpsEl t) in
  fixed_steps v fuel (set_timing t1 st).

(** ** Platform events *)

Definition keydown (k : string) (st : World) : World :=
  mkWorld (WIDTH st) (HEIGHT st)
          (mkInput (add (keys (input st)) k) (mouse (input st)))
          (gs st) (current st) (stateEl st) (timing st) (rng st) (trace st).

Definition keyup (k : string) (st : World) : World :=
  mkWorld (WIDTH st) (HEIGHT st)
          (mkInput (delete (keys (input st)) k) (mouse (input st)))
          (gs st) (current st) (stateEl st) (timing st) (rng st) (trace st).

(** [fitCanvasToWindow] of the dynamic-resolution program. *)
Definition fitCanvasToWindow (innerWidth innerHeight : R) (st : World) : World :=
  mkWorld innerWidth innerHeight (input st) (gs st) (current st) (stateEl st)
          (timing st) (rng st) (trace st).

(** The dt values of the updates a trace records, in order. *)
Fixpoint update_dts (tr : list Event) : list float :=
  match tr with
  | [] => []
  | Update _ dt :: tr' => dt :: update_dts tr'
  | _ :: tr' => update_dts tr'
  end.

(** ** Vocabulary of the statements *)

(** The coin [spawnCoins] builds from the two draws at positions [k], [k+1]. *)
Definition fresh_coin (W H : R) (s : nat -> R) (k : nat) : Coin :=
  Rect.mk (s k * (W - 16)) (s (S k) * (H - 16)) 12 12.

Fixpoint fresh_coins (W H : R) (s : nat -> R) (k n : nat) : list Coin :=
  match n with
  | O => []
  | S n' => fresh_coin W H s k :: fresh_coins W H s (S (S k)) n'
  end.

(** The coins one update leaves and the score it reaches. *)
Definition coins_after (v : Variant) (dt : R) (st : World) : list Coin :=
  filter (fun c => negb (rectsOverlap (move_player v dt st) c)) (coins (gs st)).

Definition score_after (v : Variant) (dt : R) (st : World) : Z :=
  (score (gs st) + 10 * Z.of_nat
     (List.length (filter (rectsOverlap (move_player v dt st)) (coins (gs st)))))%Z.

Definition collected (v : Variant) (dt : R) (st : World) : World :=
  set_gs (mkGameScene (move_player v dt st) (coins_after v dt st)
                      (score_after v dt st)) st.

(** One scene update as the loop makes it: [scenes[current].update(dt)]. *)
Definition step (v : Variant) (dt : R) (st : World) : World :=
  scene_update v (current st) dt st.

(** The rectangle [p] lies inside the world the scene code reads in [st]. *)
Definition within_world (v : Variant) (st : World) (p : Rect.t) : Prop :=
  0 <= Rect.x p <= worldWidth v st - Rect.w p /\
  0 <= Rect.y p <= worldHeight v st - Rect.h p.

(** What [enter] of the game scene is to establish: the player at the world
    centre, exactly 10 coins, each inside the world, and a score of 0. *)
Definition entered (v : Variant) (st : World) : Prop :=
  Rect.x (player (gs st)) = worldWidth v st / 2 /\
  Rect.y (player (gs st)) = worldHeight v st / 2 /\
  List.length (coins (gs st)) = 10%nat /\
  Forall (within_world v st) (coins (gs st)) /\
  score (gs st) = 0%Z.

(** ** Worlds to evaluate on *)

(** The player [createGameScene] builds, put at [(px, py)]. *)
Definition player_at (px py : R) : Player :=
  mkPlayer (Rect.mk px py 24 24) 180 "#22c55e".

(** A world at rest: clock at zero, mouse up, an all-zero random sequence. *)
Definition world_of (W H : R) (ks : list string) (g : GameScene)
  (cur : SceneName) : World :=
  mkWorld W H (mkInput ks (mkMouse 0 0 false)) g cur cur
          (mkTiming 0 0 0 0 0) (mkRng (fun _ => 0) 0) [].

(** The scenario world: 800x600, the player at (388,288), one coin at
    (400,300), score 0, the game scene current, the keys [ks] held. *)
Definition scenario_world (ks : list string) : World :=
  world_of 800 600 ks
           (mkGameScene (player_at 388 288) [Rect.mk 400 300 12 12] 0%Z) game.

(** The scenario with Escape held and a second coin in the far corner. *)
Definition two_coin_world : World :=
  world_of 800 600 ["Escape"%string]
           (mkGameScene (player_at 388 288)
                        [Rect.mk 400 300 12 12; Rect.mk 0 0 12 12] 0%Z) game.

(** Right and down held, the player at the centre. *)
Definition diagonal_world : World :=
  world_of 800 600 ["ArrowRight"; "ArrowDown"]%string
           (mkGameScene (player_at 400 300) [] 0%Z) game.

(** The scenario world after the window shrank to nothing: what
    [fitCanvasToWindow] leaves in the dynamic-resolution program. *)
Definition zero_viewport : World :=
  fitCanvasToWindow 0 0 (scenario_world []).


(** ** The rest of the program: start-up, mouse and window events *)

(** [createGameScene()]: the closure state as the scene is built, the player
    at the centre of the world as it is then, ten coins, score 0. *)
Definition createGameScene (v : Variant) (st : World) : World :=
  let p := mkPlayer (Rect.mk (worldWidth v st / 2) (worldHeight v st / 2) 24 24)
                    180 "#22c55e" in
  let '(cs, st1) := spawnCoins v 10 st in
  set_gs (mkGameScene p cs 0%Z) st1.

(** The program from its first line to the first [requestAnimationFrame]:
    the window is [innerWidth] x [innerHeight], no key is held, the scenes
    are built, [menu] is current and entered, the status element shows it,
    [last] is the time [now] and the accumulator is empty.  The game scene's
    field holds a placeholder until [createGameScene] fills it. *)
Definition boot (v : Variant) (innerWidth innerHeight : R) (seq : nat -> R)
  (now : float) : World :=
  let st0 := mkWorld innerWidth innerHeight (mkInput [] (mkMouse 0 0 false))
                     (mkGameScene (mkPlayer (Rect.mk 0 0 0 0) 0 "") [] 0%Z)
                     menu menu (mkTiming now 0 0 0 0) (mkRng seq 0) [] in
  let st1 := createGameScene v st0 in
  set_stateEl (current st1) (call_hook (Enter (current st1)) (scene_enter v (current st1)) st1).

Definition set_mouse (m : Mouse) (st : World) : World :=
  mkWorld (WIDTH st) (HEIGHT st) (mkInput (keys (input st)) m)
          (gs st) (current st) (stateEl st) (timing st) (rng st) (trace st).

Definition mousedown (st : World) : World :=
  let m := mouse (input st) in
  set_mouse (mkMouse (mouse_x m) (mouse_y m) true) st.

Definition mouseup (st : World) : World :=
  let m := mouse (input st) in
  set_mouse (mkMouse (mouse_x m) (mouse_y m) false) st.

(** [mousemove]: the pointer relative to the canvas, divided by [lastScale]
    in the fixed-resolution program.  [lastScale] is a variable of that
    program that only this handler reads; it is an argument here. *)
Definition mousemove (v : Variant) (lastScale clientX clientY left top : R)
  (st : World) : World :=
  let px := clientX - left in
  let py := clientY - top in
  let m := mouse (input st) in
  match v with
  | FixedRes => set_mouse (mkMouse (px / lastScale) (py / lastScale) (down m)) st
  | DynamicRes => set_mouse (mkMouse px py (down m)) st
  end.

(** The [scale] the fixed-resolution [loop] computes from the canvas size
    and stores in [lastScale]. *)
Definition fit_scale (canvas_width canvas_height : R) : R :=
  Rmin (canvas_width / BASE_WIDTH) (canvas_height / BASE_HEIGHT).

(** The [resize] listener: [fitCanvasToWindow] sets the world size in the
    dynamic-resolution program and only the canvas size in the other. *)
Definition resize (v : Variant) (innerWidth innerHeight : R) (st : World)
  : World :=
  match v with
  | FixedRes => st
  | DynamicRes => fitCanvasToWindow innerWidth innerHeight st
  end.

(** What the platform can do to a running program: deliver an input or
    window event, or call [loop] for a frame. *)
Inductive Action :=
| KeyDown (k : string)
| KeyUp (k : string)
| MouseDown
| MouseUp
| MouseMove (lastScale clientX clientY left top : R)
| Resize (innerWidth innerHeight : R)
| Frame (fuel : nat) (now : float).

Definition act (v : Variant) (a : Action) (st : World) : option World :=
  match a with
  | KeyDown k => Some (keydown k st)
  | KeyUp k => Some (keyup k st)
  | MouseDown => Some (mousedown st)
  | MouseUp => Some (mouseup st)
  | MouseMove s cx cy l t => Some (mousemove v s cx cy l t st)
  | Resize w h => Some (resize v w h st)
  | Frame fuel now => loop v fuel now st
  end.

Fixpoint run (v : Variant) (acts : list Action) (st : World) : option World :=
  match acts with
  | [] => Some st
  | a :: rest =>
    match act v a st with
    | Some st' => run v rest st'
    | None => None
    end
  end.

(** A world the program can be in: booted with a [Math.random] that keeps
    to [0, 1), then driven by any actions. *)
Definition reachable (v : Variant) (st : World) : Prop :=
  exists W H seq now acts,
    (forall i, 0 <= seq i < 1) /\
    run v acts (boot v W H seq now) = Some st.

(** What every scene update and every event keeps true: the status element
    shows the current scene, the score and the coins left add up to the ten
    coins of a round, and the player keeps its size and speed. *)
Definition scene_invariant (st : World) : Prop :=
  stateEl st = current st /\
  (0 <= score (gs st))%Z /\
  (score (gs st) + 10 * Z.of_nat (List.length (coins (gs st))) = 100)%Z /\
  Rect.w (player (gs st)) = 24 /\
  Rect.h (player (gs st)) = 24 /\
  speed (player (gs st)) = 180.



(** A freshly booted 800x600 world with the all-zero random sequence, and
    the same world with Enter pressed. *)
Definition booted_world (v : Variant) : World :=
  boot v 800 600 (fun _ => 0) 0.

Definition booted_enter_world (v : Variant) : World :=
  keydown "Enter" (booted_world v).

(** A game paused at score 10 with one coin left, no key held. *)
Definition paused_world : World :=
  world_of 800 600 [] (mkGameScene (player_at 388 288) [Rect.mk 0 0 12 12] 10%Z) pause.

(** The scene update of one fixed step, with its record in the trace and
    without the accumulator: what [fixed_step] does before it takes
    [FIXED_DT] off. *)
Definition simulate_step (v : Variant) (st : World) : World :=
  step v (float_to_R (FIXED_DT / 1000))
       (log (Update (current st) (FIXED_DT / 1000)%float) st).

(** The clock as [loop(now)] sets it before the fixed steps. *)
Definition frame_clock (now : float) (t : Timing) : Timing :=
  let delta := (now - last t)%float in
  if PrimFloat.leb 1000 (fpsTimer t + delta)
  then mkTiming now (accumulator t + delta)%float 0 0 (frames t + 1)
  else mkTiming now (accumulator t + delta)%float (frames t + 1)
                (fpsTimer t + delta)%float (fpsEl t).

(** The accumulator alone through the fixed-step [while]: how many passes
    the loop makes from [acc] and what it leaves, each pass one rounded
    subtraction of [FIXED_DT]; [None] when [fuel] passes were not enough. *)
Fixpoint drain (fuel : nat) (acc : float) : option (nat * float) :=
  if PrimFloat.leb FIXED_DT acc then
    match fuel with
    | O => None
    | S f =>
      match drain f (acc - FIXED_DT)%float with
      | Some (n, a) => Some (S n, a)
      | None => None
      end
    end
  else Some (O, acc).

(** [FIXED_DT] as a whole number of [2^-1074]. *)
Definition FIXED_DT_ulps : Z := (4691249611844267 * 2 ^ 1026)%Z.

(** Two to the 55th, in milliseconds more than a million years: the
    accumulated times the termination argument covers. *)
Definition TIME_LIMIT : float := 0x1p55%float.

(** A round played through the frame loop.  The program starts in an
    800x600 window with every random number 1/2, so that all ten coins lie
    at (392,292), under the player at the centre (400,300); Enter is pressed,
    and a frame comes 40 ms after start-up.  That frame makes two fixed
    steps: the first leaves the menu for the game, the second collects the
    ten coins and goes back to the menu.  The accumulator it leaves is the
    double 6.6666666666666643. *)
Definition demo_coin : Coin := Rect.mk (1 / 2 * (800 - 16)) (1 / 2 * (600 - 16)) 12 12.

Definition demo_start (v : Variant) : World := boot v 800 600 (fun _ => 1 / 2) 0.

Definition demo_actions : list Action := [KeyDown "Enter"; Frame 5 40].

Definition demo_end (v : Variant) : World :=
  set_timing (mkTiming 40 0x1.aaaaaaaaaaaa8p+2 1 40 0)
             (Nat.iter 2 (simulate_step v) (keydown "Enter" (demo_start v))).

(** The finished round of the fixed-resolution program one frame later, at
    80 ms, Enter still held: two more fixed steps. *)
Definition demo_replay : World :=
  set_timing (mkTiming 80 0x1.aaaaaaaaaaaa8p+3 2 80 0)
             (Nat.iter 2 (simulate_step FixedRes) (demo_end FixedRes)).

(** The paused game after a frame at 40 ms: two updates of the pause scene. *)
Definition paused_frame (v : Variant) : World :=
  set_timing (mkTiming 40 0x1.aaaaaaaaaaaa8p+2 1 40 0)
             (Nat.iter 2 (simulate_step v) paused_world).

(** The values the loop variable takes in the grid loops of [draw],
    [for (let x = 0; x < limit; x += 32)], from [x] on; [None] when [fuel]
    passes were not enough to leave the loop. *)
Fixpoint grid_positions (fuel : nat) (limit x : R) : option (list R) :=
  if Rltb x limit then
    match fuel with
    | O => None
    | S f =>
      match grid_positions f limit (x + 32) with
      | Some rest => Some (x :: rest)
      | None => None
      end
    end
  else Some [].

(** * Properties *)

(** ** Comparisons *)

Lemma Rltb_true_iff (a b : R) : Rltb a b = true <-> a < b.
Proof. unfold Rltb; destruct (Rlt_dec a b); split; intros; auto; discriminate. Qed.

Lemma Rltb_false_iff (a b : R) : Rltb a b = false <-> b <= a.
Proof.
  unfold Rltb; destruct (Rlt_dec a b); split; intros; auto; try discriminate; lra.
Qed.

(** The overlap test is the open-interval intersection test on both axes. *)
Lemma rectsOverlap_true_iff (a b : Rect.t) :
  rectsOverlap a b = true <->
  Rect.x a < Rect.x b + Rect.w b /\ Rect.x b < Rect.x a + Rect.w a /\
  Rect.y a < Rect.y b + Rect.h b /\ Rect.y b < Rect.y a + Rect.h a.
Proof.
  unfold rectsOverlap. rewrite !andb_true_iff, !Rltb_true_iff. tauto.
Qed.

(** ** What the random coins are *)

Lemma fresh_coins_length W H s k n : List.length (fresh_coins W H s k n) = n.
Proof. revert k; induction n; intros; simpl; auto. Qed.

Lemma spawnCoins_loop_eq v n : forall arr st,
  spawnCoins_loop v n arr st =
  (arr ++ fresh_coins (worldWidth v st) (worldHeight v st)
                      (rand_seq (rng st)) (rand_pos (rng st)) n,
   set_rng (mkRng (rand_seq (rng st)) (rand_pos (rng st) + 2 * n)) st).
Proof.
  induction n as [|n IH]; intros arr st.
  - simpl. rewrite app_nil_r, Nat.add_0_r.
    destruct st as [? ? ? ? ? ? ? [? ?] ?]; reflexivity.
  - cbn [spawnCoins_loop Math_random]. rewrite IH.
    destruct st as [W H i g c e t [s k] tr].
    replace (rand_pos (rng (mkWorld W H i g c e t (mkRng s k) tr)) + 2 * S n)%nat
      with (S (S k) + 2 * n)%nat by (cbn; lia).
    rewrite <- app_assoc. destruct v; reflexivity.
Qed.

Lemma spawnCoins_eq v n st :
  spawnCoins v n st =
  (fresh_coins (worldWidth v st) (worldHeight v st)
               (rand_seq (rng st)) (rand_pos (rng st)) n,
   set_rng (mkRng (rand_seq (rng st)) (rand_pos (rng st) + 2 * n)) st).
Proof. unfold spawnCoins. rewrite spawnCoins_loop_eq. reflexivity. Qed.

(** [enter] of the dynamic-resolution game scene, in closed form. *)
Lemma game_enter_dynamic st :
  game_enter DynamicRes st =
  set_gs (mkGameScene
            (move_to (WIDTH st / 2) (HEIGHT st / 2) (player (gs st)))
            (fresh_coins (WIDTH st) (HEIGHT st)
                         (rand_seq (rng st)) (rand_pos (rng st)) 10)
            0%Z)
         (set_rng (mkRng (rand_seq (rng st)) (rand_pos (rng st) + 20)) st).
Proof. unfold game_enter. rewrite spawnCoins_eq. reflexivity. Qed.

(** ** Frame lemmas for the hooks and [setScene] *)

Lemma game_enter_frame v st :
  current (game_enter v st) = current st /\
  trace (game_enter v st) = trace st /\
  stateEl (game_enter v st) = stateEl st /\
  timing (game_enter v st) = timing st /\
  input (game_enter v st) = input st /\
  WIDTH (game_enter v st) = WIDTH st /\
  HEIGHT (game_enter v st) = HEIGHT st.
Proof.
  destruct v; [cbn; tauto|]. rewrite game_enter_dynamic. cbn. tauto.
Qed.

Lemma setScene_same v st : setScene v (current st) st = st.
Proof.
  unfold setScene. destruct (SceneName_eq_dec (current st) (current st)); congruence.
Qed.

Lemma setScene_other v name st :
  name <> current st ->
  setScene v name st =
  set_stateEl name
    (call_hook (Enter name) (scene_enter v name)
       (set_current name
          (call_hook (Exit (current st)) (scene_exit (current st)) st))).
Proof.
  intros Hne. unfold setScene.
  destruct (SceneName_eq_dec name (current st)) as [E|_]; [contradiction|].
  cbn [current set_current]. f_equal.
  destruct name; cbn [scene_enter call_hook]; unfold menu_enter, pause_enter; cbn;
    try reflexivity.
  apply (game_enter_frame v).
Qed.

(** Leaving a scene changes nothing but the trace. *)
Lemma call_exit_eq name st :
  call_hook (Exit name) (scene_exit name) st = log (Exit name) st.
Proof. destruct name; reflexivity. Qed.

(** Entering the game scene runs its [enter], in either program. *)
Lemma call_enter_game v st :
  call_hook (Enter game) (scene_enter v game) st = game_enter v (log (Enter game) st).
Proof. reflexivity. Qed.

(** A transition to [menu] or [pause] leaves the game scene's state alone. *)
Lemma setScene_gs v name st :
  name <> game -> gs (setScene v name st) = gs st.
Proof.
  intros Hg. unfold setScene.
  destruct (SceneName_eq_dec name (current st)); [reflexivity|].
  rewrite call_exit_eq. destruct name; try contradiction; reflexivity.
Qed.

Lemma setScene_current v name st : current (setScene v name st) = name.
Proof.
  unfold setScene.
  destruct (SceneName_eq_dec name (current st)); [congruence|].
  rewrite call_exit_eq.
  destruct name; cbn; try reflexivity. apply (game_enter_frame v).
Qed.

Lemma setScene_trace v name st :
  name <> current st ->
  trace (setScene v name st) = trace st ++ [Exit (current st); Enter name].
Proof.
  intros Hne. rewrite setScene_other by assumption. rewrite call_exit_eq.
  destruct name; cbn; rewrite <- ?app_assoc; try reflexivity.
  destruct (game_enter_frame v
    (log (Enter game) (set_current game (log (Exit (current st)) st))))
    as (_ & Ht & _).
  rewrite Ht. cbn. rewrite <- app_assoc. reflexivity.
Qed.

Lemma game_enter_dynamic_rng st :
  rng (game_enter DynamicRes st) =
  mkRng (rand_seq (rng st)) (rand_pos (rng st) + 20).
Proof. rewrite game_enter_dynamic. reflexivity. Qed.

(** In the dynamic-resolution program every transition into the game scene,
    whatever the scene it comes from, runs the reset in [enter]. *)
Lemma setScene_game_dynamic_gs st :
  current st <> game ->
  gs (setScene DynamicRes game st) =
  mkGameScene (move_to (WIDTH st / 2) (HEIGHT st / 2) (player (gs st)))
              (fresh_coins (WIDTH st) (HEIGHT st)
                           (rand_seq (rng st)) (rand_pos (rng st)) 10)
              0%Z.
Proof.
  intros Hne. rewrite setScene_other by congruence.
  rewrite call_exit_eq, call_enter_game, game_enter_dynamic.
  reflexivity.
Qed.

(** In the fixed-resolution program no transition touches the game scene's
    state: [enter] is empty there. *)
Lemma setScene_fixed_gs name st : gs (setScene FixedRes name st) = gs st.
Proof.
  unfold setScene. destruct (SceneName_eq_dec name (current st)); [reflexivity|].
  rewrite call_exit_eq. destruct name; reflexivity.
Qed.

(** ** The coin loop *)

Lemma splice1_middle {A : Type} (pre suf : list A) (c : A) :
  splice1 (pre ++ c :: suf) (List.length pre) = pre ++ suf.
Proof.
  unfold splice1.
  rewrite firstn_app, Nat.sub_diag, firstn_all, firstn_O, app_nil_r.
  replace (S (List.length pre)) with (List.length (pre ++ [c]))
    by (rewrite length_app; simpl; lia).
  replace (pre ++ c :: suf) with ((pre ++ [c]) ++ suf)
    by (rewrite <- app_assoc; reflexivity).
  rewrite skipn_app, Nat.sub_diag, skipn_all. reflexivity.
Qed.

(** Run over a prefix [pre] of the array, the reverse loop keeps exactly the
    coins of [pre] that do not overlap [p], in their order, leaves the
    rest of the array alone, and adds 10 per coin it removed. *)
Lemma collect_loop_prefix (p : Rect.t) (pre : list Coin) :
  forall (suf : list Coin) (sc : Z),
  collect_loop (List.length pre) p (pre ++ suf) sc =
  Some (filter (fun c => negb (rectsOverlap p c)) pre ++ suf,
        (sc + 10 * Z.of_nat (List.length (filter (rectsOverlap p) pre)))%Z).
Proof.
  induction pre as [|c pre IH] using rev_ind; intros suf sc.
  - simpl. rewrite Z.add_0_r. reflexivity.
  - rewrite length_app, Nat.add_comm. cbn [List.length Nat.add collect_loop].
    rewrite <- app_assoc. cbn [app].
    rewrite nth_error_app2 by apply Nat.le_refl. rewrite Nat.sub_diag. cbn [nth_error].
    rewrite !filter_app. cbn [filter].
    destruct (rectsOverlap p c) eqn:Hov; cbn [negb].
    + rewrite splice1_middle, IH, app_nil_r, length_app. cbn [List.length].
      match goal with |- Some (_, ?a) = Some (_, ?b) => replace b with a by lia end.
      reflexivity.
    + rewrite IH, app_nil_r, <- app_assoc. reflexivity.
Qed.

Lemma collect_loop_eq (p : Rect.t) (cs : list Coin) (sc : Z) :
  collect_loop (List.length cs) p cs sc =
  Some (filter (fun c => negb (rectsOverlap p c)) cs,
        (sc + 10 * Z.of_nat (List.length (filter (rectsOverlap p) cs)))%Z).
Proof.
  pose proof (collect_loop_prefix p cs [] sc) as H.
  rewrite !app_nil_r in H. exact H.
Qed.

(** ** The game scene's update in closed form *)

Lemma game_update_eq v dt st :
  game_update v dt st =
  let st1 := collected v dt st in
  let st2 := if has (keys (input st)) "Escape" then setScene v pause st1 else st1 in
  match coins_after v dt st with
  | [] => setScene v menu st2
  | _ :: _ => st2
  end.
Proof.
  unfold game_update. rewrite collect_loop_eq.
  fold (coins_after v dt st) (score_after v dt st) (collected v dt st).
  cbn zeta.
  assert (Hc : coins (gs (if has (keys (input st)) "Escape"
                          then setScene v pause (collected v dt st)
                          else collected v dt st)) = coins_after v dt st).
  { destruct (has (keys (input st)) "Escape"); [rewrite setScene_gs by discriminate|];
      reflexivity. }
  rewrite Hc. destruct (coins_after v dt st); reflexivity.
Qed.

(** No transition inside the update touches the game scene's state. *)
Lemma game_update_gs v dt st :
  gs (game_update v dt st) =
  mkGameScene (move_player v dt st) (coins_after v dt st) (score_after v dt st).
Proof.
  rewrite game_update_eq. cbn zeta.
  destruct (coins_after v dt st) eqn:Hc;
    destruct (has (keys (input st)) "Escape");
    rewrite ?setScene_gs by discriminate; unfold collected; cbn; rewrite ?Hc;
    reflexivity.
Qed.

(** ** C6: collection by overlap, ten points a coin *)

(** C6. In one update of the game scene, with [p] the player as the update
    leaves it (moved and clamped): the coins kept are exactly the coins that
    do not overlap [p], in their order; a coin overlaps [p] exactly when the
    open intervals intersect on both axes, so a coin whose edge only touches an
    edge of [p] is kept; and the score grows by 10 for every coin removed. *)
Theorem C6_collect_iff_overlap_ten_each (v : Variant) (dt : R) (st : World) :
  let st' := game_update v dt st in
  let p : Rect.t := player (gs st') in
  coins (gs st') = filter (fun c => negb (rectsOverlap p c)) (coins (gs st)) /\
  (forall c : Coin,
      rectsOverlap p c = true <->
      Rect.x p < Rect.x c + Rect.w c /\ Rect.x c < Rect.x p + Rect.w p /\
      Rect.y p < Rect.y c + Rect.h c /\ Rect.y c < Rect.y p + Rect.h p) /\
  (forall c : Coin,
      Rect.x c + Rect.w c = Rect.x p \/ Rect.x p + Rect.w p = Rect.x c \/
      Rect.y c + Rect.h c = Rect.y p \/ Rect.y p + Rect.h p = Rect.y c ->
      rectsOverlap p c = false) /\
  score (gs st') =
  (score (gs st) +
   10 * Z.of_nat (List.length (coins (gs st)) - List.length (coins (gs st'))))%Z.
Proof.
  cbn zeta. rewrite game_update_gs. cbn [player coins score box].
  split; [reflexivity|]. split; [intro c; apply rectsOverlap_true_iff|].
  split.
  - intros c Htouch. apply not_true_is_false. intro Hov.
    apply rectsOverlap_true_iff in Hov. lra.
  - unfold score_after, coins_after. do 3 f_equal.
    pose proof (filter_length (rectsOverlap (move_player v dt st)) (coins (gs st))) as H.
    lia.
Qed.

(** ** Movement *)

Lemma hypot_nonneg a b : 0 <= hypot a b.
Proof. apply sqrt_pos. Qed.

Lemma hypot_sqr a b : hypot a b * hypot a b = a * a + b * b.
Proof. unfold hypot. apply sqrt_sqrt. nra. Qed.

Lemma hypot_0 : hypot 0 0 = 0.
Proof. unfold hypot. replace (0 * 0 + 0 * 0) with 0 by lra. apply sqrt_0. Qed.

Lemma hypot_eq_0 a b : hypot a b = 0 -> a = 0 /\ b = 0.
Proof.
  intros H. pose proof (hypot_sqr a b) as Hs. rewrite H in Hs. split; nra.
Qed.

Lemma hypot_scale a b k : hypot (a * k) (b * k) = hypot a b * Rabs k.
Proof.
  unfold hypot.
  replace (a * k * (a * k) + b * k * (b * k)) with ((a * a + b * b) * (k * k)) by ring.
  rewrite sqrt_mult_alt by nra.
  f_equal. fold (Rsqr k). apply sqrt_Rsqr_abs.
Qed.

Lemma or_else_nonzero v d : v <> 0 -> or_else v d = v.
Proof. intros H. unfold or_else. destruct (Req_dec_T v 0); [contradiction|reflexivity]. Qed.

Lemma or_else_zero d : or_else 0 d = d.
Proof. unfold or_else. destruct (Req_dec_T 0 0); [reflexivity|contradiction]. Qed.

(** With some axis set the divisor is the vector's length; with none it is 1. *)
Lemma input_len_moving ks :
  input_ax ks <> 0 \/ input_ay ks <> 0 ->
  input_len ks = hypot (input_ax ks) (input_ay ks) /\ 0 < input_len ks.
Proof.
  intros H. unfold input_len.
  assert (Hn : hypot (input_ax ks) (input_ay ks) <> 0).
  { intro E. apply hypot_eq_0 in E. tauto. }
  rewrite or_else_nonzero by assumption. split; [reflexivity|].
  pose proof (hypot_nonneg (input_ax ks) (input_ay ks)). lra.
Qed.

Lemma input_len_idle ks :
  input_ax ks = 0 -> input_ay ks = 0 -> input_len ks = 1.
Proof.
  intros Hx Hy. unfold input_len. rewrite Hx, Hy, hypot_0. apply or_else_zero.
Qed.

Lemma displacement_idle ks spd dt :
  input_ax ks = 0 -> input_ay ks = 0 -> displacement ks spd dt = (0, 0).
Proof.
  intros Hx Hy. unfold displacement.
  rewrite (input_len_idle ks Hx Hy), Hx, Hy. f_equal; lra.
Qed.

(** The step added to the position has length [|spd * dt|] whenever an axis
    is set. *)
Lemma displacement_length ks spd dt :
  input_ax ks <> 0 \/ input_ay ks <> 0 ->
  hypot (fst (displacement ks spd dt)) (snd (displacement ks spd dt)) =
  Rabs (spd * dt).
Proof.
  intros H. destruct (input_len_moving ks H) as [Hl Hpos].
  unfold displacement. cbn [fst snd].
  replace (input_ax ks / input_len ks * spd * dt)
    with (input_ax ks * (spd * dt / input_len ks)) by (field; lra).
  replace (input_ay ks / input_len ks * spd * dt)
    with (input_ay ks * (spd * dt / input_len ks)) by (field; lra).
  rewrite hypot_scale, <- Hl.
  unfold Rdiv. rewrite Rabs_mult, (Rabs_pos_eq (/ input_len ks)).
  - field. lra.
  - left. apply Rinv_0_lt_compat. exact Hpos.
Qed.


(** [Math.max(0, Math.min(hi, v))] stays put on a value already in range. *)
Lemma clamp_in_range hi v : 0 <= v <= hi -> Rmax 0 (Rmin hi v) = v.
Proof.
  intros [H0 H1]. rewrite Rmin_right by assumption. apply Rmax_right. assumption.
Qed.

Lemma clamp_bounds hi v :
  0 <= Rmax 0 (Rmin hi v) <= Rmax 0 hi.
Proof.
  split; [apply Rmax_l|].
  apply Rle_max_compat_l. apply Rmin_l.
Qed.

Lemma move_player_eq v dt st :
  move_player v dt st =
  let p := player (gs st) in
  let d := displacement (keys (input st)) (speed p) dt in
  move_to (Rmax 0 (Rmin (worldWidth v st - Rect.w p) (Rect.x p + fst d)))
          (Rmax 0 (Rmin (worldHeight v st - Rect.h p) (Rect.y p + snd d))) p.
Proof.
  unfold move_player. cbn zeta.
  destruct (displacement (keys (input st)) (speed (player (gs st))) dt); reflexivity.
Qed.

Lemma input_ax_cases ks : input_ax ks = -1 \/ input_ax ks = 0 \/ input_ax ks = 1.
Proof.
  unfold input_ax.
  destruct (has ks "ArrowRight" || has ks "d"), (has ks "ArrowLeft" || has ks "a");
    cbn [b2r]; lra.
Qed.

Lemma input_ay_cases ks : input_ay ks = -1 \/ input_ay ks = 0 \/ input_ay ks = 1.
Proof.
  unfold input_ay.
  destruct (has ks "ArrowDown" || has ks "s"), (has ks "ArrowUp" || has ks "w");
    cbn [b2r]; lra.
Qed.


(** The update leaves the player where [move_player] put it. *)
Lemma game_update_player v dt st :
  player (gs (game_update v dt st)) = move_player v dt st.
Proof. rewrite game_update_gs. reflexivity. Qed.

(** ** C7: the movement vector is normalised *)

Lemma no_keys_no_axis : input_ax [] = 0 /\ input_ay [] = 0.
Proof. unfold input_ax, input_ay. cbn. lra. Qed.

Lemma clamp_nonexpansive hi x d :
  0 <= x <= hi -> Rabs (Rmax 0 (Rmin hi (x + d)) - x) <= Rabs d.
Proof.
  intros [H0 H1]. unfold Rmax, Rmin.
  destruct (Rle_dec hi (x + d)); destruct (Rle_dec 0 _);
    unfold Rabs; repeat destruct (Rcase_abs _); lra.
Qed.

Lemma hypot_le a b c d :
  Rabs a <= Rabs c -> Rabs b <= Rabs d -> hypot a b <= hypot c d.
Proof.
  intros Ha Hb. unfold hypot. apply sqrt_le_1_alt.
  assert (a * a <= c * c).
  { revert Ha. unfold Rabs. repeat destruct (Rcase_abs _); intros; nra. }
  assert (b * b <= d * d).
  { revert Hb. unfold Rabs. repeat destruct (Rcase_abs _); intros; nra. }
  lra.
Qed.

Lemma displacement_length_le ks spd dt :
  0 <= spd * dt ->
  hypot (fst (displacement ks spd dt)) (snd (displacement ks spd dt)) <= spd * dt.
Proof.
  intros Hsd.
  destruct (Req_dec_T (input_ax ks) 0) as [Hx|Hx];
    [destruct (Req_dec_T (input_ay ks) 0) as [Hy|Hy]|].
  - rewrite (displacement_idle ks spd dt Hx Hy). cbn [fst snd].
    rewrite hypot_0. exact Hsd.
  - rewrite displacement_length by (right; exact Hy).
    rewrite Rabs_pos_eq by exact Hsd. lra.
  - rewrite displacement_length by (left; exact Hx).
    rewrite Rabs_pos_eq by exact Hsd. lra.
Qed.


(** With no axis set the player ends at the clamp of where it was. *)
Lemma move_player_idle v dt st :
  input_ax (keys (input st)) = 0 ->
  input_ay (keys (input st)) = 0 ->
  box (move_player v dt st) =
  Rect.mk (Rmax 0 (Rmin (worldWidth v st - Rect.w (player (gs st)))
                        (Rect.x (player (gs st)))))
          (Rmax 0 (Rmin (worldHeight v st - Rect.h (player (gs st)))
                        (Rect.y (player (gs st)))))
          (Rect.w (player (gs st))) (Rect.h (player (gs st))).
Proof.
  intros Hx Hy. rewrite move_player_eq. cbn zeta.
  rewrite (displacement_idle _ _ _ Hx Hy). cbn. rewrite !Rplus_0_r. reflexivity.
Qed.




(** ** What an update leaves alone *)

Lemma setScene_frame v name st :
  WIDTH (setScene v name st) = WIDTH st /\
  HEIGHT (setScene v name st) = HEIGHT st /\
  input (setScene v name st) = input st /\
  timing (setScene v name st) = timing st.
Proof.
  unfold setScene. destruct (SceneName_eq_dec name (current st)); [tauto|].
  rewrite call_exit_eq.
  destruct name; cbn; try tauto.
  destruct (game_enter_frame v
    (log (Enter game) (set_current game (log (Exit (current st)) st))))
    as (_ & _ & _ & Ht & Hi & Hw & Hh).
  rewrite Ht, Hi, Hw, Hh. cbn. tauto.
Qed.

Lemma game_update_frame v dt st :
  WIDTH (game_update v dt st) = WIDTH st /\
  HEIGHT (game_update v dt st) = HEIGHT st /\
  input (game_update v dt st) = input st /\
  timing (game_update v dt st) = timing st.
Proof.
  rewrite game_update_eq. cbn zeta.
  destruct (coins_after v dt st), (has (keys (input st)) "Escape");
    repeat match goal with
           | |- context [setScene v ?n ?s] =>
             let H := fresh in
             pose proof (setScene_frame v n s) as H;
             destruct H as (-> & -> & -> & ->)
           end; cbn; tauto.
Qed.

Lemma worldWidth_game_update v dt st :
  worldWidth v (game_update v dt st) = worldWidth v st.
Proof. destruct v; [reflexivity|]. apply game_update_frame. Qed.

Lemma worldHeight_game_update v dt st :
  worldHeight v (game_update v dt st) = worldHeight v st.
Proof. destruct v; [reflexivity|]. apply game_update_frame. Qed.

Lemma move_player_size v dt st :
  Rect.w (move_player v dt st) = Rect.w (player (gs st)) /\
  Rect.h (move_player v dt st) = Rect.h (player (gs st)).
Proof. rewrite move_player_eq. cbn. tauto. Qed.

(** The clamp puts the player between 0 and the larger of 0 and the room the
    world leaves beside it. *)
Lemma move_player_bounds v dt st :
  let p := move_player v dt st in
  0 <= Rect.x p <= Rmax 0 (worldWidth v st - Rect.w p) /\
  0 <= Rect.y p <= Rmax 0 (worldHeight v st - Rect.h p).
Proof.
  cbn zeta. destruct (move_player_size v dt st) as [-> ->].
  rewrite move_player_eq. cbn [move_to box Rect.x Rect.y].
  split; apply clamp_bounds.
Qed.

(** ** C4: the player stays clamped *)

(** C4 (amended). After every update of the game scene, for any dt and any
    keys, the player's position satisfies [0 <= x <= max 0 (W - w)] and
    [0 <= y <= max 0 (H - h)], with [W], [H] the world size and [w], [h] the
    player's: in a world at least as large as the player this is
    [0 <= x <= W - w] and [0 <= y <= H - h]; in a narrower world [x] is 0. *)
Theorem C4_player_clamped (v : Variant) (dt : R) (st : World) :
  let st' := game_update v dt st in
  let p' : Rect.t := player (gs st') in
  0 <= Rect.x p' <= Rmax 0 (worldWidth v st' - Rect.w p') /\
  0 <= Rect.y p' <= Rmax 0 (worldHeight v st' - Rect.h p') /\
  (Rect.w p' <= worldWidth v st' -> Rect.h p' <= worldHeight v st' ->
   within_world v st' p') /\
  (worldWidth v st' < Rect.w p' -> Rect.x p' = 0) /\
  (worldHeight v st' < Rect.h p' -> Rect.y p' = 0).
Proof.
  cbn zeta. unfold within_world.
  rewrite !game_update_player, !worldWidth_game_update, !worldHeight_game_update.
  pose proof (move_player_bounds v dt st) as [Hx Hy]. cbn zeta in Hx, Hy.
  repeat split; try tauto; intros.
  - rewrite Rmax_right in Hx by lra. tauto.
  - rewrite Rmax_right in Hy by lra. tauto.
  - rewrite Rmax_left in Hx by lra. lra.
  - rewrite Rmax_left in Hy by lra. lra.
Qed.

(** In a 0x0 world the 24x24 player is put at [x = 0], which is not at most
    [W - w = -24]: the bounds of the claim as stated fail there. *)
Lemma C4_zero_viewport_counterexample :
  ~ within_world DynamicRes (game_update DynamicRes (1 / 60) zero_viewport)
      (player (gs (game_update DynamicRes (1 / 60) zero_viewport))).
Proof.
  unfold within_world.
  rewrite game_update_player, worldWidth_game_update.
  destruct (move_player_size DynamicRes (1 / 60) zero_viewport) as [-> _].
  pose proof (move_player_bounds DynamicRes (1 / 60) zero_viewport) as [Hx _].
  cbn. cbn in Hx. lra.
Qed.

(** ** C5: what a transition does *)

(** The exit hooks are empty functions. *)
Lemma exit_hook_eq (c : SceneName) (st : World) :
  match c with
  | menu => menu_exit | game => game_exit | pause => pause_exit
  end st = st.
Proof. destruct c; reflexivity. Qed.

Lemma call_enter_eq v (name : SceneName) (st : World) :
  call_hook (Enter name) (scene_enter v name) st =
  match name with
  | menu => menu_enter | game => game_enter v | pause => pause_enter
  end (log (Enter name) st).
Proof. destruct name; reflexivity. Qed.

Lemma set_stateEl_rng c st : rng (set_stateEl c st) = rng st.
Proof. reflexivity. Qed.

(** Only the dynamic-resolution [enter] of the game scene draws random
    numbers: twenty of them. *)
Lemma setScene_rng v name st :
  name <> current st ->
  rand_pos (rng (setScene v name st)) =
  match v, name with
  | DynamicRes, game => (rand_pos (rng st) + 20)%nat
  | _, _ => rand_pos (rng st)
  end.
Proof.
  intros Hne. rewrite setScene_other by assumption.
  rewrite call_exit_eq, call_enter_eq.
  destruct name; [destruct v; reflexivity | | destruct v; reflexivity].
  destruct v; [reflexivity|].
  rewrite set_stateEl_rng, game_enter_dynamic_rng. reflexivity.
Qed.


(** C5.  [setScene(name)] returns the state untouched (no hook called,
    nothing written) when [name] is the current scene.  Otherwise it calls
    the current scene's exit hook, on the state as it is; then sets the
    current scene to [name]; then calls the new scene's enter hook, on the
    state with the new current scene; and last writes [name] to the status
    element.  A hook that a scene does not have is not called.  In this
    program every scene has both hooks; the exit hooks and the enter hooks of
    menu and pause are empty, and so is the enter hook of the game scene in
    the fixed-resolution program, while in the dynamic-resolution program it
    puts the player at the centre, spawns ten coins from the next twenty
    random numbers and sets the score to 0. *)
Theorem C5_setScene_noop_or_exit_switch_enter
  (v : Variant) (name : SceneName) (st : World) :
  (name = current st -> setScene v name st = st) /\
  (name <> current st ->
   exists fexit fenter : World -> World,
     scene_exit (current st) = Some fexit /\
     scene_enter v name = Some fenter /\
     setScene v name st =
       set_stateEl name
         (fenter (log (Enter name)
            (set_current name (fexit (log (Exit (current st)) st)))))) /\
  (name <> current st ->
   trace (setScene v name st) = trace st ++ [Exit (current st); Enter name] /\
   current (setScene v name st) = name /\
   stateEl (setScene v name st) = name /\
   gs (setScene v name st) =
     match v, name with
     | DynamicRes, game =>
       mkGameScene (move_to (WIDTH st / 2) (HEIGHT st / 2) (player (gs st)))
                   (fresh_coins (WIDTH st) (HEIGHT st)
                                (rand_seq (rng st)) (rand_pos (rng st)) 10)
                   0%Z
     | _, _ => gs st
     end /\
   rand_pos (rng (setScene v name st)) =
     match v, name with
     | DynamicRes, game => (rand_pos (rng st) + 20)%nat
     | _, _ => rand_pos (rng st)
     end) /\
  (forall e s, call_hook e None s = s).
Proof.
  split; [intros ->; apply setScene_same|].
  split; [|split; [|reflexivity]].
  - intros Hne.
    exists (match current st with
            | menu => menu_exit | game => game_exit | pause => pause_exit
            end),
           (match name with
            | menu => menu_enter | game => game_enter v | pause => pause_enter
            end).
    split; [destruct (current st); reflexivity|].
    split; [destruct name; reflexivity|].
    rewrite setScene_other by assumption.
    rewrite call_exit_eq, exit_hook_eq. apply f_equal, call_enter_eq.
  - intros Hne.
    split; [apply setScene_trace; assumption|].
    split; [apply setScene_current|].
    split; [rewrite setScene_other by assumption; reflexivity|].
    rewrite (setScene_rng v name st Hne).
    destruct v.
    + rewrite setScene_fixed_gs. destruct name; split; reflexivity.
    + destruct name.
      * rewrite (setScene_gs DynamicRes menu) by discriminate.
        split; reflexivity.
      * assert (Hg : current st <> game) by (intro E; apply Hne; symmetry; exact E).
        rewrite (setScene_game_dynamic_gs st Hg).
        split; reflexivity.
      * rewrite (setScene_gs DynamicRes pause) by discriminate.
        split; reflexivity.
Qed.

(** ** The two transitions at the end of the game scene's update *)

Lemma collected_frame v dt st :
  current (collected v dt st) = current st /\
  trace (collected v dt st) = trace st /\
  input (collected v dt st) = input st.
Proof. unfold collected. cbn. tauto. Qed.

(** Escape held and no coin left: to [pause], then on to [menu]. *)
Lemma game_update_escape_last_coin v dt st :
  has (keys (input st)) "Escape" = true ->
  coins_after v dt st = [] ->
  game_update v dt st = setScene v menu (setScene v pause (collected v dt st)).
Proof.
  intros Hesc Hc. rewrite game_update_eq. cbn zeta. rewrite Hesc, Hc. reflexivity.
Qed.

(** Escape held and a coin left: to [pause] only. *)
Lemma game_update_escape_coins_left v dt st :
  has (keys (input st)) "Escape" = true ->
  coins_after v dt st <> [] ->
  game_update v dt st = setScene v pause (collected v dt st).
Proof.
  intros Hesc Hc. rewrite game_update_eq. cbn zeta. rewrite Hesc.
  destruct (coins_after v dt st); [contradiction|reflexivity].
Qed.

Lemma game_update_coins v dt st :
  coins (gs (game_update v dt st)) = coins_after v dt st.
Proof. rewrite game_update_gs. reflexivity. Qed.

(** ** C10: Escape on the update that takes the last coin *)

(** C10. When an update of the game scene, run while the game scene is
    current, sees Escape held and ends with no coin left, it makes two
    transitions one after the other: to pause (exit of game, enter of pause)
    and then to menu (exit of pause, enter of menu); the current scene at the
    end is menu. *)
Theorem C10_escape_on_last_coin (v : Variant) (dt : R) (st : World) :
  current st = game ->
  has (keys (input st)) "Escape" = true ->
  coins (gs (game_update v dt st)) = [] ->
  let st' := game_update v dt st in
  st' = setScene v menu (setScene v pause (collected v dt st)) /\
  current (setScene v pause (collected v dt st)) = pause /\
  trace st' = trace st ++ [Exit game; Enter pause; Exit pause; Enter menu] /\
  current st' = menu /\
  stateEl st' = menu.
Proof.
  intros Hcur Hesc Hnone. cbn zeta. rewrite game_update_coins in Hnone.
  rewrite (game_update_escape_last_coin v dt st Hesc Hnone).
  destruct (collected_frame v dt st) as (Hc & Ht & _).
  split; [reflexivity|]. split; [apply setScene_current|].
  split; [|split; [apply setScene_current|]].
  - rewrite setScene_trace by (rewrite setScene_current; discriminate).
    rewrite setScene_current.
    rewrite setScene_trace by (rewrite Hc, Hcur; discriminate).
    rewrite Hc, Ht, Hcur, <- app_assoc. reflexivity.
  - rewrite setScene_other by (rewrite setScene_current; discriminate).
    reflexivity.
Qed.

(** ** The scenario: one coin under the player *)

(** In the scenario, whatever keys are held as long as no axis is set, the
    player stays at (388,288), the coin at (400,300) overlaps it, and the
    update collects it. *)
Lemma scenario_collects v dt st :
  worldWidth v st = 800 ->
  worldHeight v st = 600 ->
  box (player (gs st)) = Rect.mk 388 288 24 24 ->
  coins (gs st) = [Rect.mk 400 300 12 12] ->
  score (gs st) = 0%Z ->
  input_ax (keys (input st)) = 0 ->
  input_ay (keys (input st)) = 0 ->
  box (move_player v dt st) = Rect.mk 388 288 24 24 /\
  coins_after v dt st = [] /\
  score_after v dt st = 10%Z.
Proof.
  intros HW HH Hp Hc Hs Hx Hy.
  assert (Hm : box (move_player v dt st) = Rect.mk 388 288 24 24).
  { rewrite (move_player_idle v dt st Hx Hy), HW, HH, Hp. cbn.
    rewrite !clamp_in_range by lra. reflexivity. }
  assert (Hov : rectsOverlap (move_player v dt st) (Rect.mk 400 300 12 12) = true).
  { apply rectsOverlap_true_iff. rewrite Hm. cbn. lra. }
  split; [exact Hm|].
  unfold coins_after, score_after. rewrite Hc, Hs. cbn [filter].
  rewrite Hov. split; reflexivity.
Qed.

Lemma escape_only_no_axis : input_ax ["Escape"%string] = 0 /\ input_ay ["Escape"%string] = 0.
Proof. unfold input_ax, input_ay. cbn. lra. Qed.

(** ** C8: the scenario *)

(** C8. In an 800x600 world with the player at (388,288), 24x24, the single
    coin at (400,300), 12x12, score 0, the game scene current and no key
    held, one update of the game scene leaves no coin, a score of 10 and
    menu as the current scene. *)
Theorem C8_scenario_one_update (v : Variant) (dt : R) (st : World) :
  worldWidth v st = 800 ->
  worldHeight v st = 600 ->
  box (player (gs st)) = Rect.mk 388 288 24 24 ->
  coins (gs st) = [Rect.mk 400 300 12 12] ->
  score (gs st) = 0%Z ->
  current st = game ->
  keys (input st) = [] ->
  let st' := game_update v dt st in
  coins (gs st') = [] /\ score (gs st') = 10%Z /\ current st' = menu /\
  trace st' = trace st ++ [Exit game; Enter menu].
Proof.
  intros HW HH Hp Hc Hs Hcur Hk. cbn zeta.
  destruct no_keys_no_axis as [Hx Hy]. rewrite <- Hk in Hx, Hy.
  destruct (scenario_collects v dt st HW HH Hp Hc Hs Hx Hy) as (_ & Hca & Hsa).
  rewrite game_update_gs. cbn [coins score].
  split; [exact Hca|]. split; [exact Hsa|].
  rewrite game_update_eq. cbn zeta. rewrite Hk, Hca. cbn [has existsb].
  split; [apply setScene_current|].
  rewrite setScene_trace by (cbn; rewrite Hcur; discriminate).
  cbn. rewrite Hcur. reflexivity.
Qed.

(** The scenario world itself, in both programs, at the loop's dt. *)
Lemma C8_scenario_one_update_witness :
  (coins (gs (game_update FixedRes (float_to_R (FIXED_DT / 1000)) (scenario_world []))) = [] /\
   score (gs (game_update FixedRes (float_to_R (FIXED_DT / 1000)) (scenario_world []))) = 10%Z /\
   current (game_update FixedRes (float_to_R (FIXED_DT / 1000)) (scenario_world [])) = menu) /\
  (coins (gs (game_update DynamicRes (float_to_R (FIXED_DT / 1000)) (scenario_world []))) = [] /\
   score (gs (game_update DynamicRes (float_to_R (FIXED_DT / 1000)) (scenario_world []))) = 10%Z /\
   current (game_update DynamicRes (float_to_R (FIXED_DT / 1000)) (scenario_world [])) = menu).
Proof.
  split.
  - destruct (C8_scenario_one_update FixedRes (float_to_R (FIXED_DT / 1000)) (scenario_world [])
                eq_refl eq_refl eq_refl eq_refl eq_refl eq_refl eq_refl)
      as (H1 & H2 & H3 & _).
    auto.
  - destruct (C8_scenario_one_update DynamicRes (float_to_R (FIXED_DT / 1000)) (scenario_world [])
                eq_refl eq_refl eq_refl eq_refl eq_refl eq_refl eq_refl)
      as (H1 & H2 & H3 & _).
    auto.
Defined.

(** C10 at the scenario world with Escape held. *)
Lemma C10_escape_on_last_coin_witness :
  current (game_update DynamicRes (1 / 60) (scenario_world ["Escape"%string])) = menu /\
  trace (game_update DynamicRes (1 / 60) (scenario_world ["Escape"%string])) =
  [Exit game; Enter pause; Exit pause; Enter menu].
Proof.
  assert (Hnone : coins (gs (game_update DynamicRes (1 / 60)
                               (scenario_world ["Escape"%string]))) = []).
  { rewrite game_update_coins.
    destruct escape_only_no_axis as [Hx Hy].
    apply (scenario_collects DynamicRes (1 / 60) (scenario_world ["Escape"%string])
             eq_refl eq_refl eq_refl eq_refl eq_refl Hx Hy). }
  destruct (C10_escape_on_last_coin DynamicRes (1 / 60)
              (scenario_world ["Escape"%string]) eq_refl eq_refl Hnone)
    as (_ & _ & Htr & Hcur & _).
  split; [exact Hcur | exact Htr].
Defined.

(** With no axis set a player inside the world stays where it is. *)
Lemma move_player_idle_inside v dt st :
  input_ax (keys (input st)) = 0 ->
  input_ay (keys (input st)) = 0 ->
  within_world v st (player (gs st)) ->
  box (move_player v dt st) = box (player (gs st)).
Proof.
  intros Hx Hy [Hin_x Hin_y]. rewrite (move_player_idle v dt st Hx Hy).
  rewrite !clamp_in_range by assumption.
  destruct (box (player (gs st))); reflexivity.
Qed.

(** The first step from [two_coin_world]: the coin under the player is
    taken, the far one is left, and Escape sends the machine to pause. *)
Lemma two_coin_world_step v :
  let st1 := step v (1 / 60) two_coin_world in
  current st1 = pause /\
  score (gs st1) = 10%Z /\
  coins (gs st1) = [Rect.mk 0 0 12 12].
Proof.
  cbn zeta.
  change (step v (1 / 60) two_coin_world)
    with (game_update v (1 / 60) two_coin_world).
  destruct escape_only_no_axis as [Hx Hy].
  assert (Hin : within_world v two_coin_world (player (gs two_coin_world)))
    by (unfold within_world, worldWidth, worldHeight, BASE_WIDTH, BASE_HEIGHT;
        destruct v; cbn; lra).
  pose proof (move_player_idle_inside v (1 / 60) two_coin_world Hx Hy Hin) as Hm.
  assert (Hnear : rectsOverlap (move_player v (1 / 60) two_coin_world)
                               (Rect.mk 400 300 12 12) = true).
  { apply rectsOverlap_true_iff. rewrite Hm. cbn. lra. }
  assert (Hfar : rectsOverlap (move_player v (1 / 60) two_coin_world)
                              (Rect.mk 0 0 12 12) = false).
  { apply not_true_is_false. intro Hov. apply rectsOverlap_true_iff in Hov.
    rewrite Hm in Hov. cbn in Hov. lra. }
  assert (Hca : coins_after v (1 / 60) two_coin_world = [Rect.mk 0 0 12 12]).
  { unfold coins_after. cbn [coins gs two_coin_world world_of filter].
    fold two_coin_world. rewrite Hnear, Hfar. reflexivity. }
  assert (Hsa : score_after v (1 / 60) two_coin_world = 10%Z).
  { unfold score_after. cbn [coins score gs two_coin_world world_of filter].
    fold two_coin_world. rewrite Hnear, Hfar. reflexivity. }
  rewrite game_update_gs. cbn [score coins]. rewrite Hca, Hsa.
  split; [|split; reflexivity].
  rewrite game_update_escape_coins_left by (rewrite ?Hca; first [reflexivity | discriminate]).
  apply setScene_current.
Qed.

(** ** C9: no edge detection on Escape *)

Lemma pause_update_escape v dt st :
  has (keys (input st)) "Escape" = true ->
  pause_update v dt st = setScene v game st.
Proof. intros H. unfold pause_update. rewrite H. reflexivity. Qed.

(** No update releases a key: the input after a step is the input before. *)
Lemma step_input v dt st : input (step v dt st) = input st.
Proof.
  unfold step, scene_update, menu_update, pause_update.
  destruct (current st).
  - destruct (has (keys (input st)) "Enter" || down (mouse (input st)));
      [apply setScene_frame | reflexivity].
  - apply game_update_frame.
  - destruct (has (keys (input st)) "Escape");
      [apply setScene_frame | reflexivity].
Qed.

(** C9 (amended). With Escape held there is no edge detection: one step in
    the pause scene always goes back to game; one step in the game scene goes
    to pause when at least one coin is left at the end of that update (and to
    menu when none is left).  The keys stay as they were, so the step after a
    game step that left a coin returns to game: while coins remain, holding
    Escape alternates game and pause on consecutive steps. *)
Theorem C9_escape_toggles_while_coins_remain (v : Variant) (dt : R) (st : World) :
  has (keys (input st)) "Escape" = true ->
  (current st = pause -> current (step v dt st) = game) /\
  (current st = game -> coins (gs (step v dt st)) <> [] ->
   current (step v dt st) = pause /\ current (step v dt (step v dt st)) = game) /\
  (current st = game -> coins (gs (step v dt st)) = [] ->
   current (step v dt st) = menu) /\
  has (keys (input (step v dt st))) "Escape" = true.
Proof.
  intros Hesc. split; [|split; [|split]].
  - intros Hcur. unfold step. rewrite Hcur. cbn [scene_update].
    rewrite pause_update_escape by assumption. apply setScene_current.
  - intros Hcur Hleft.
    assert (Hp : current (step v dt st) = pause).
    { unfold step in *. rewrite Hcur in *. cbn [scene_update] in *.
      rewrite game_update_coins in Hleft.
      rewrite game_update_escape_coins_left by assumption.
      apply setScene_current. }
    split; [exact Hp|].
    unfold step at 1. rewrite Hp. cbn [scene_update].
    rewrite pause_update_escape by (rewrite step_input; assumption).
    apply setScene_current.
  - intros Hcur Hnone. unfold step in *. rewrite Hcur in *. cbn [scene_update] in *.
    rewrite game_update_coins in Hnone.
    rewrite game_update_escape_last_coin by assumption.
    apply setScene_current.
  - rewrite step_input. assumption.
Qed.

(** From the scenario world with Escape held and a second coin out of
    reach: game, pause, game. *)
Lemma C9_escape_toggles_while_coins_remain_witness :
  current (step DynamicRes (1 / 60) two_coin_world) = pause /\
  current (step DynamicRes (1 / 60) (step DynamicRes (1 / 60) two_coin_world)) = game.
Proof.
  assert (Hleft : coins (gs (step DynamicRes (1 / 60) two_coin_world)) <> []).
  { destruct (two_coin_world_step DynamicRes) as (_ & _ & Hco).
    cbn zeta in Hco. rewrite Hco. discriminate. }
  destruct (C9_escape_toggles_while_coins_remain DynamicRes (1 / 60) two_coin_world
              eq_refl) as (_ & Hgame & _).
  exact (Hgame eq_refl Hleft).
Defined.

(** Escape held on the update that takes the last coin: the step from game
    ends in menu, not in pause. *)
Lemma C9_last_coin_counterexample :
  has (keys (input (scenario_world ["Escape"%string]))) "Escape" = true /\
  current (scenario_world ["Escape"%string]) = game /\
  current (step DynamicRes (1 / 60) (scenario_world ["Escape"%string])) <> pause.
Proof.
  split; [reflexivity|]. split; [reflexivity|].
  unfold step. cbn [current scenario_world world_of scene_update].
  fold (scenario_world ["Escape"%string]).
  destruct escape_only_no_axis as [Hx Hy].
  destruct (scenario_collects DynamicRes (1 / 60) (scenario_world ["Escape"%string])
              eq_refl eq_refl eq_refl eq_refl eq_refl Hx Hy) as (_ & Hnone & _).
  rewrite (game_update_escape_last_coin DynamicRes (1 / 60)
             (scenario_world ["Escape"%string]) eq_refl Hnone).
  rewrite setScene_current. discriminate.
Qed.

(** ** C3: entering the game scene *)

(** The fixed-resolution program's [enter] has an empty body. *)
Lemma game_enter_fixed st : game_enter FixedRes st = st.
Proof. reflexivity. Qed.

(** Drawn from numbers in [0, 1), in a world of at least 16x16, every fresh
    coin is 12x12 and lies inside the world. *)
Lemma fresh_coins_within (W H : R) (s : nat -> R) :
  (forall i, 0 <= s i < 1) -> 16 <= W -> 16 <= H ->
  forall n k,
    Forall (fun c : Coin =>
              0 <= Rect.x c <= W - 16 /\ 0 <= Rect.y c <= H - 16 /\
              Rect.w c = 12 /\ Rect.h c = 12)
           (fresh_coins W H s k n).
Proof.
  intros Hs HW HH. induction n as [|n IH]; intros k; cbn [fresh_coins].
  - constructor.
  - constructor; [|apply IH].
    pose proof (Hs k). pose proof (Hs (S k)). cbn. repeat split; nra.
Qed.

(** One call of the dynamic-resolution [enter], from any state. *)
Lemma game_enter_dynamic_entered st :
  (forall i, 0 <= rand_seq (rng st) i < 1) ->
  16 <= WIDTH st -> 16 <= HEIGHT st ->
  entered DynamicRes (game_enter DynamicRes st).
Proof.
  intros Hs HW HH. rewrite game_enter_dynamic. unfold entered.
  cbn [gs set_gs set_rng player coins score move_to box Rect.x Rect.y
       worldWidth worldHeight WIDTH HEIGHT].
  split; [reflexivity|]. split; [reflexivity|].
  split; [apply fresh_coins_length|]. split; [|reflexivity].
  eapply Forall_impl; [|apply (fresh_coins_within _ _ _ Hs HW HH)].
  intros c (Hx & Hy & Hw & Hh). unfold within_world. cbn. rewrite Hw, Hh. lra.
Qed.

Lemma iter_game_enter_frame n : forall st,
  WIDTH (Nat.iter n (game_enter DynamicRes) st) = WIDTH st /\
  HEIGHT (Nat.iter n (game_enter DynamicRes) st) = HEIGHT st /\
  rng (Nat.iter n (game_enter DynamicRes) st) =
    mkRng (rand_seq (rng st)) (rand_pos (rng st) + 20 * n).
Proof.
  induction n as [|n IH]; intros st.
  - cbn. rewrite Nat.add_0_r. destruct (rng st); tauto.
  - rewrite Nat.iter_succ. destruct (IH st) as (HW & HH & Hr).
    destruct (game_enter_frame DynamicRes (Nat.iter n (game_enter DynamicRes) st))
      as (_ & _ & _ & _ & _ & -> & ->).
    rewrite game_enter_dynamic_rng, Hr. cbn. repeat split; try assumption.
    f_equal. lia.
Qed.

(** In the dynamic-resolution program, in a world of at least 16x16 and
    with [Math.random] in [0, 1), calling the game scene's [enter] from any
    state, any positive number of times, leaves the player at the world
    centre, exactly 10 coins made from the 20 random numbers drawn by the
    last call, each within the world bounds minus the coin size, and a score
    of 0. *)
Lemma game_enter_dynamic_iter (st : World) (n : nat) :
  (forall i, 0 <= rand_seq (rng st) i < 1) ->
  16 <= WIDTH st ->
  16 <= HEIGHT st ->
  let st' := Nat.iter (S n) (game_enter DynamicRes) st in
  entered DynamicRes st' /\
  coins (gs st') =
    fresh_coins (WIDTH st) (HEIGHT st) (rand_seq (rng st))
                (rand_pos (rng st) + 20 * n) 10 /\
  rand_pos (rng st') = (rand_pos (rng st) + 20 * S n)%nat.
Proof.
  intros Hs HW HH. cbn zeta. rewrite Nat.iter_succ.
  destruct (iter_game_enter_frame n st) as (HWn & HHn & Hrn).
  split; [|split].
  - apply game_enter_dynamic_entered; rewrite ?HWn, ?HHn, ?Hrn; cbn; assumption.
  - rewrite game_enter_dynamic. cbn [gs set_gs coins]. rewrite HWn, HHn, Hrn.
    reflexivity.
  - rewrite game_enter_dynamic_rng, Hrn. cbn. lia.
Qed.

Lemma iter_game_enter_fixed n st : Nat.iter n (game_enter FixedRes) st = st.
Proof.
  induction n as [|n IH]; [reflexivity|].
  rewrite Nat.iter_succ, IH. apply game_enter_fixed.
Qed.

(** C3.  In the fixed-resolution program the game scene's [enter] (line
    144) is an empty function.  Called, once or twice, on a game in progress
    (the player at (388,288), one coin left, score 10) it leaves the player
    where it was, the one coin and the score of 10: none of the player at the
    world centre, ten fresh coins and score 0 is established, and so it is
    from every state.  In the dynamic-resolution program [enter] (lines
    346-351) does re-initialise the scene, however often it is called, when
    the world is at least 16x16 and [Math.random] stays in [0, 1); in a 0x0
    world its coins, placed at [random * (WIDTH - 16)], lie outside the
    world. *)
Theorem C3_fixed_enter_resets_nothing :
  (let st' := game_enter FixedRes paused_world in
   Rect.x (player (gs st')) = 388 /\ Rect.y (player (gs st')) = 288 /\
   coins (gs st') = [Rect.mk 0 0 12 12] /\ score (gs st') = 10%Z /\
   ~ entered FixedRes st') /\
  ~ entered FixedRes (Nat.iter 2 (game_enter FixedRes) paused_world) /\
  (forall st n, Nat.iter n (game_enter FixedRes) st = st) /\
  (forall st n,
     (forall i, 0 <= rand_seq (rng st) i < 1) ->
     16 <= WIDTH st -> 16 <= HEIGHT st ->
     entered DynamicRes (Nat.iter (S n) (game_enter DynamicRes) st)) /\
  ~ entered DynamicRes (game_enter DynamicRes zero_viewport).
Proof.
  assert (Hno : ~ entered FixedRes paused_world).
  { unfold entered. intros (_ & _ & _ & _ & Hs). discriminate Hs. }
  split; [|split; [|split; [|split]]].
  - cbn zeta. rewrite game_enter_fixed.
    split; [reflexivity|]. split; [reflexivity|]. split; [reflexivity|].
    split; [reflexivity | exact Hno].
  - rewrite iter_game_enter_fixed. exact Hno.
  - intros st n. apply iter_game_enter_fixed.
  - intros st n Hs HW HH. apply (game_enter_dynamic_iter st n Hs HW HH).
  - rewrite game_enter_dynamic. unfold entered.
    intros (_ & _ & _ & Hall & _).
    cbn [gs set_gs coins zero_viewport world_of WIDTH HEIGHT rng rand_seq rand_pos
         fresh_coins] in Hall.
    apply Forall_inv in Hall. unfold within_world in Hall. cbn in Hall. lra.
Qed.

(** ** The fixed-step loop *)

Lemma update_dts_app tr1 tr2 :
  update_dts (tr1 ++ tr2) = update_dts tr1 ++ update_dts tr2.
Proof.
  induction tr1 as [|e tr1 IH]; [reflexivity|].
  destruct e; cbn; rewrite IH; reflexivity.
Qed.

(** A transition records hooks only, never an update. *)
Lemma setScene_dts v name st :
  update_dts (trace (setScene v name st)) = update_dts (trace st).
Proof.
  destruct (SceneName_eq_dec name (current st)) as [->|Hne].
  - rewrite setScene_same. reflexivity.
  - rewrite setScene_trace by assumption. rewrite update_dts_app. cbn.
    apply app_nil_r.
Qed.

Lemma scene_update_dts v name dt st :
  update_dts (trace (scene_update v name dt st)) = update_dts (trace st).
Proof.
  destruct name; cbn [scene_update].
  - unfold menu_update.
    destruct (has (keys (input st)) "Enter" || down (mouse (input st)));
      [apply setScene_dts | reflexivity].
  - rewrite game_update_eq. cbn zeta.
    destruct (coins_after v dt st), (has (keys (input st)) "Escape");
      rewrite ?setScene_dts; reflexivity.
  - unfold pause_update.
    destruct (has (keys (input st)) "Escape"); [apply setScene_dts | reflexivity].
Qed.

Lemma scene_update_timing v name dt st :
  timing (scene_update v name dt st) = timing st.
Proof.
  destruct name; cbn [scene_update].
  - unfold menu_update.
    destruct (has (keys (input st)) "Enter" || down (mouse (input st)));
      [apply setScene_frame | reflexivity].
  - apply game_update_frame.
  - unfold pause_update.
    destruct (has (keys (input st)) "Escape"); [apply setScene_frame | reflexivity].
Qed.

(** ** Binary64: comparing and subtracting

    The facts about doubles the loop needs, from the specification of the
    primitive floats: among finite doubles that are not negative the
    comparisons are those of the whole numbers [ulps], and subtracting
    [FIXED_DT] from a double [x] with [FIXED_DT <= x < 2^B] gives a finite
    double, not negative, that is [x - FIXED_DT] up to [2^(B - 51)]. *)

Section Binary64.
Local Open Scope Z_scope.


(** The number of binary digits of a mantissa. *)
Lemma digits2_pos_bounds (m : positive) :
  2 ^ (Zpos (digits2_pos m) - 1) <= Zpos m < 2 ^ Zpos (digits2_pos m).
Proof.
  induction m as [p IH|p IH|]; cbn [digits2_pos].
  - rewrite Pos2Z.inj_succ.
    replace (Z.succ (Z.pos (digits2_pos p)) - 1)
      with (Z.succ (Z.pos (digits2_pos p) - 1)) by lia.
    rewrite !Z.pow_succ_r by lia. lia.
  - rewrite Pos2Z.inj_succ.
    replace (Z.succ (Z.pos (digits2_pos p)) - 1)
      with (Z.succ (Z.pos (digits2_pos p) - 1)) by lia.
    rewrite !Z.pow_succ_r by lia. lia.
  - cbn. lia.
Qed.

Lemma digits2_pos_le (m : positive) (k : Z) :
  Zpos m < 2 ^ k -> Zpos (digits2_pos m) <= k.
Proof.
  intros H. pose proof (digits2_pos_bounds m) as [Hlo _].
  destruct (Z_lt_le_dec k 0) as [Hk|Hk].
  - rewrite Z.pow_neg_r in H by exact Hk. lia.
  - assert (2 ^ (Zpos (digits2_pos m) - 1) < 2 ^ k) by lia.
    apply Z.pow_lt_mono_r_iff in H0; lia.
Qed.

(** Aligning a mantissa to a smaller exponent multiplies it by a power of
    two. *)
Lemma iter_xO (d m : positive) : Zpos (Pos.iter xO m d) = Zpos m * 2 ^ Zpos d.
Proof.
  induction d as [|d IH] using Pos.peano_ind.
  - cbn. lia.
  - rewrite Pos.iter_succ, Pos2Z.inj_succ, Z.pow_succ_r by lia.
    rewrite Pos2Z.inj_xO, IH. lia.
Qed.

Lemma shl_align_spec (m : positive) (e e' : Z) :
  let '(m', e1) := shl_align m e e' in
  e1 = Z.min e e' /\ Zpos m' = Zpos m * 2 ^ (e - e1).
Proof.
  unfold shl_align. destruct (e' - e) as [|p|p] eqn:E.
  - split; [lia|]. replace (e - e) with 0 by lia. lia.
  - split; [lia|]. replace (e - e) with 0 by lia. lia.
  - split; [lia|]. rewrite iter_xO. f_equal. f_equal. lia.
Qed.

(** Shifting a mantissa right divides it by a power of two, rounding
    down. *)
Lemma shr_1_m (mrs : shr_record) :
  0 <= shr_m mrs -> shr_m (shr_1 mrs) = shr_m mrs / 2.
Proof.
  destruct mrs as [m r s]. cbn [shr_m]. intros H.
  destruct m as [|p|p]; [reflexivity| |lia].
  destruct p as [p|p|]; cbn [shr_1 shr_m].
  - rewrite Pos2Z.inj_xI. apply Z.div_unique with (r := 1); lia.
  - rewrite Pos2Z.inj_xO. apply Z.div_unique with (r := 0); lia.
  - reflexivity.
Qed.

Lemma iter_pos_shr_1 (p : positive) : forall mrs,
  0 <= shr_m mrs -> shr_m (SpecFloat.iter_pos shr_1 p mrs) = shr_m mrs / 2 ^ Zpos p.
Proof.
  induction p as [p IH|p IH|]; intros mrs H; cbn [SpecFloat.iter_pos].
  - assert (H1 : 0 <= shr_m (shr_1 mrs))
      by (rewrite shr_1_m by exact H; apply Z.div_pos; lia).
    assert (H2 : 0 <= shr_m (SpecFloat.iter_pos shr_1 p (shr_1 mrs)))
      by (rewrite IH by exact H1; apply Z.div_pos; lia).
    rewrite IH by exact H2. rewrite IH by exact H1. rewrite shr_1_m by exact H.
    rewrite !Z.div_div by lia. f_equal.
    replace (Z.pos p~1) with (1 + Z.pos p + Z.pos p) by lia.
    rewrite !Z.pow_add_r by lia. lia.
  - assert (H2 : 0 <= shr_m (SpecFloat.iter_pos shr_1 p mrs))
      by (rewrite IH by exact H; apply Z.div_pos; lia).
    rewrite IH by exact H2. rewrite IH by exact H.
    rewrite !Z.div_div by lia. f_equal.
    replace (Z.pos p~0) with (Z.pos p + Z.pos p) by lia.
    rewrite !Z.pow_add_r by lia. lia.
  - rewrite shr_1_m by exact H. reflexivity.
Qed.

Lemma shr_spec (mrs : shr_record) (e n : Z) :
  0 <= shr_m mrs ->
  0 <= shr_m (fst (shr mrs e n)) /\
  snd (shr mrs e n) = Z.max e (e + n) /\
  shr_m mrs - 2 ^ (snd (shr mrs e n) - e)
    < shr_m (fst (shr mrs e n)) * 2 ^ (snd (shr mrs e n) - e) <= shr_m mrs.
Proof.
  intros H. unfold shr. destruct n as [|p|p]; cbn [fst snd].
  - split; [exact H|]. split; [lia|]. replace (e - e) with 0 by lia. lia.
  - rewrite iter_pos_shr_1 by exact H.
    split; [apply Z.div_pos; lia|]. split; [lia|].
    replace (e + Z.pos p - e) with (Z.pos p) by lia.
    assert (Hp : 0 < 2 ^ Z.pos p) by (apply Z.pow_pos_nonneg; lia).
    pose proof (Z.div_mod (shr_m mrs) (2 ^ Z.pos p) ltac:(lia)) as Hd.
    pose proof (Z.mod_pos_bound (shr_m mrs) (2 ^ Z.pos p) Hp) as Hm.
    lia.
  - split; [exact H|]. split; [lia|]. replace (e - e) with 0 by lia. lia.
Qed.

Lemma round_nearest_even_bounds (m : Z) (l : location) :
  m <= round_nearest_even m l <= m + 1.
Proof.
  unfold round_nearest_even. destruct l as [|[| |]]; try lia.
  destruct (Z.even m); lia.
Qed.

(** The exponent binary64 gives a number of magnitude [2^e]. *)
Lemma fexp_eq (e : Z) : fexp prec emax e = Z.max (e - 53) (-1074).
Proof. reflexivity. Qed.

Lemma pow2_pos (k : Z) : 0 <= k -> 0 < 2 ^ k.
Proof. intros H. apply Z.pow_pos_nonneg; lia. Qed.

Lemma scale_le (a b k j : Z) :
  0 <= j -> j <= k -> a * 2 ^ (k - j) <= b -> a * 2 ^ k <= b * 2 ^ j.
Proof.
  intros Hj Hk H. replace k with ((k - j) + j) at 1 by lia.
  rewrite Z.pow_add_r by lia. pose proof (pow2_pos j Hj). nia.
Qed.

Lemma scale_eq (a k j : Z) :
  0 <= j -> j <= k -> a * 2 ^ (k - j) * 2 ^ j = a * 2 ^ k.
Proof.
  intros Hj Hk. replace k with ((k - j) + j) at 2 by lia.
  rewrite Z.pow_add_r by lia. lia.
Qed.

Lemma digits_of_scaled (m : positive) (e B : Z) :
  0 <= e + 1074 -> Zpos m * 2 ^ (e + 1074) < 2 ^ (B + 1074) ->
  Zpos (digits2_pos m) + e <= B.
Proof.
  intros He H.
  destruct (Z_lt_le_dec B e) as [Hlt|Hle].
  - exfalso. pose proof (pow2_pos (e + 1074) He).
    assert (2 ^ (B + 1074) <= 2 ^ (e + 1074)).
    { destruct (Z_lt_le_dec (B + 1074) 0).
      - rewrite Z.pow_neg_r by lia. lia.
      - apply Z.pow_le_mono_r; lia. }
    nia.
  - assert (Zpos m < 2 ^ (B - e)).
    { replace (B + 1074) with ((B - e) + (e + 1074)) in H by lia.
      rewrite (Z.pow_add_r 2 (B - e) (e + 1074)) in H by lia.
      pose proof (pow2_pos (e + 1074) He). nia. }
    pose proof (digits2_pos_le m (B - e) H0). lia.
Qed.


Lemma scale_lt (a b k j : Z) :
  0 <= j -> j <= k -> b - 2 ^ (k - j) < a * 2 ^ (k - j) ->
  b * 2 ^ j - 2 ^ k < a * 2 ^ k.
Proof.
  intros Hj Hk H.
  assert (E : 2 ^ k = 2 ^ (k - j) * 2 ^ j)
    by (rewrite <- Z.pow_add_r by lia; f_equal; lia).
  rewrite E. pose proof (pow2_pos j Hj). nia.
Qed.

(** Rounding [m * 2^e], a positive number below [2^B], to binary64: the
    result is a zero or a positive finite double, above the number by at
    most [2^(B - 53)] and below it by at most [2^(B - 51)].  Everything is
    counted in units of [2^-1074]. *)
Lemma binary_round_bound (B : Z) (m : positive) (e : Z) :
  -1074 <= e <= B - 53 -> B <= 1023 ->
  Zpos m * 2 ^ (e + 1074) < 2 ^ (B + 1074) ->
  SFnonneg (binary_round prec emax false m e) /\
  Zpos m * 2 ^ (e + 1074) - 4 * 2 ^ (B - 53 + 1074)
    <= SFulps (binary_round prec emax false m e)
    <= Zpos m * 2 ^ (e + 1074) + 2 ^ (B - 53 + 1074).
Proof.
  intros He HB HV. unfold binary_round.
  assert (He0 : 0 <= e + 1074) by lia.
  pose proof (digits_of_scaled m e B He0 HV) as Hd.
  pose proof (shl_align_spec m e (fexp prec emax (Zpos (digits2_pos m) + e))) as Hs.
  rewrite fexp_eq in *.
  destruct (shl_align m e _) as [mz ez]. destruct Hs as [Hez Hmz].
  assert (Hez' : -1074 <= ez <= B - 53) by lia.
  assert (HVz : Zpos mz * 2 ^ (ez + 1074) = Zpos m * 2 ^ (e + 1074)).
  { rewrite Hmz. replace (e - ez) with ((e + 1074) - (ez + 1074)) by lia.
    apply scale_eq; lia. }
  assert (Hez0 : 0 <= ez + 1074) by lia.
  assert (HVz' : Zpos mz * 2 ^ (ez + 1074) < 2 ^ (B + 1074)) by lia.
  pose proof (digits_of_scaled mz ez B Hez0 HVz') as Hdz.
  unfold binary_round_aux, shr_fexp. rewrite !fexp_eq.
  cbn [shr_record_of_loc Zdigits2].
  assert (Hmz0 : 0 <= shr_m (Build_shr_record (Zpos mz) false false)) by (cbn; lia).
  pose proof (shr_spec (Build_shr_record (Zpos mz) false false) ez
                (Z.max (Zpos (digits2_pos mz) + ez - 53) (-1074) - ez)
                Hmz0) as (H1 & H2 & H3 & H4).
  destruct (shr _ ez _) as [mrs' e']. cbn [fst snd shr_m] in H1, H2, H3, H4.
  assert (He' : ez <= e' <= B - 53) by lia.
  assert (HV1 : shr_m mrs' * 2 ^ (e' + 1074) <= Zpos m * 2 ^ (e + 1074)).
  { rewrite <- HVz. apply scale_le; [lia|lia|].
    replace (e' + 1074 - (ez + 1074)) with (e' - ez) by lia. exact H4. }
  assert (HL1 : Zpos m * 2 ^ (e + 1074) - 2 ^ (e' + 1074)
                < shr_m mrs' * 2 ^ (e' + 1074)).
  { rewrite <- HVz. apply scale_lt; [lia|lia|].
    replace (e' + 1074 - (ez + 1074)) with (e' - ez) by lia. exact H3. }
  pose proof (round_nearest_even_bounds (shr_m mrs') (loc_of_shr_record mrs')) as Hr.
  set (m2 := round_nearest_even (shr_m mrs') (loc_of_shr_record mrs')) in *.
  set (P := 2 ^ (B - 53 + 1074)) in *.
  assert (HP : 0 < P) by (apply pow2_pos; lia).
  assert (Hp' : 0 < 2 ^ (e' + 1074)) by (apply pow2_pos; lia).
  assert (Hmono : 2 ^ (e' + 1074) <= P)
    by (apply Z.pow_le_mono_r; lia).
  assert (HV2 : m2 * 2 ^ (e' + 1074) <= Zpos m * 2 ^ (e + 1074) + P) by nia.
  assert (HL2 : Zpos m * 2 ^ (e + 1074) - P < m2 * 2 ^ (e' + 1074)) by nia.
  assert (Hd2 : Zdigits2 m2 + e' <= B + 1).
  { destruct m2 as [|q|q] eqn:E; cbn [Zdigits2]; [lia| |lia].
    apply digits_of_scaled; [lia|].
    replace (B + 1 + 1074) with (1 + (B + 1074)) by lia.
    rewrite (Z.pow_add_r 2 1 (B + 1074)) by lia. change (2 ^ 1) with 2.
    assert (P <= 2 ^ (B + 1074)) by (apply Z.pow_le_mono_r; lia).
    lia. }
  assert (Hm20 : 0 <= shr_m (Build_shr_record m2 false false)) by (cbn; lia).
  pose proof (shr_spec (Build_shr_record m2 false false) e'
                (Z.max (Zdigits2 m2 + e' - 53) (-1074) - e')
                Hm20) as (K1 & K2 & K3 & K4).
  destruct (shr _ e' _) as [mrs'' e'']. cbn [fst snd shr_m] in K1, K2, K3, K4.
  assert (He'' : e' <= e'' <= B - 52) by lia.
  assert (HV3 : shr_m mrs'' * 2 ^ (e'' + 1074) <= m2 * 2 ^ (e' + 1074)).
  { apply scale_le; [lia|lia|].
    replace (e'' + 1074 - (e' + 1074)) with (e'' - e') by lia. exact K4. }
  assert (HL3 : m2 * 2 ^ (e' + 1074) - 2 ^ (e'' + 1074)
                < shr_m mrs'' * 2 ^ (e'' + 1074)).
  { apply scale_lt; [lia|lia|].
    replace (e'' + 1074 - (e' + 1074)) with (e'' - e') by lia. exact K3. }
  assert (Hmono2 : 2 ^ (e'' + 1074) <= 2 * P).
  { unfold P. replace (2 * 2 ^ (B - 53 + 1074)) with (2 ^ (1 + (B - 53 + 1074)))
      by (rewrite Z.pow_add_r by lia; reflexivity).
    apply Z.pow_le_mono_r; lia. }
  destruct (shr_m mrs'') as [|q|q] eqn:Eq; [| |lia].
  - cbn [SFnonneg SFulps]. split; [exact I|lia].
  - assert (Hle : (e'' <=? emax - prec) = true) by (apply Z.leb_le; cbn; lia).
    rewrite Hle. cbn [SFnonneg SFulps cond_Zopp]. split; [exact I|lia].
Qed.

(** The mantissa and exponent of a finite double are canonical. *)
Lemma valid_finite (x : float) (s : bool) (m : positive) (e : Z) :
  Prim2SF x = S754_finite s m e ->
  -1074 <= e <= 971 /\ Zpos (digits2_pos m) <= 53 /\
  (-1074 < e -> Zpos (digits2_pos m) = 53).
Proof.
  intros E. pose proof (Prim2SF_valid x) as V. rewrite E in V.
  cbn [SpecFloat.valid_binary] in V. unfold bounded, canonical_mantissa in V.
  apply andb_true_iff in V. destruct V as [V1 V2].
  apply Z.eqb_eq in V1. apply Z.leb_le in V2. rewrite fexp_eq in V1.
  change (emax - prec) with 971 in V2. lia.
Qed.

Lemma lt_by_exponent (a b c p q : Z) :
  0 < p -> 0 < q -> 0 < b -> a < 2 * c -> c <= b -> a * p < b * (q * (2 * p)).
Proof.
  intros Hp Hq Hb Ha Hc.
  assert (a * p < 2 * c * p) by nia.
  assert (2 * c * p <= b * (2 * p)) by nia.
  assert (b * (2 * p) <= b * (q * (2 * p))) by nia.
  lia.
Qed.

(** On canonical positive doubles the comparison, which looks at the
    exponents first, is the comparison of the numbers. *)
Lemma SFcompare_finite (m1 m2 : positive) (e1 e2 : Z) :
  -1074 <= e1 -> Zpos (digits2_pos m1) <= 53 ->
  (-1074 < e1 -> Zpos (digits2_pos m1) = 53) ->
  -1074 <= e2 -> Zpos (digits2_pos m2) <= 53 ->
  (-1074 < e2 -> Zpos (digits2_pos m2) = 53) ->
  SFcompare (S754_finite false m1 e1) (S754_finite false m2 e2) =
  Some (Zpos m1 * 2 ^ (e1 + 1074) ?= Zpos m2 * 2 ^ (e2 + 1074)).
Proof.
  intros He1 Hd1 Hn1 He2 Hd2 Hn2. cbn [SFcompare]. f_equal.
  pose proof (digits2_pos_bounds m1) as [L1 U1].
  pose proof (digits2_pos_bounds m2) as [L2 U2].
  assert (P53 : forall d, d <= 53 -> 2 ^ d <= 2 ^ 53)
    by (intros d Hd; destruct (Z_lt_le_dec d 0);
        [rewrite Z.pow_neg_r by lia; lia | apply Z.pow_le_mono_r; lia]).
  pose proof (P53 _ Hd1). pose proof (P53 _ Hd2).
  destruct (Z.compare_spec e1 e2) as [->|Hlt|Hgt].
  - try rewrite Z.compare_refl.
    change (Pos.compare_cont Eq m1 m2) with (Zpos m1 ?= Zpos m2).
    apply Zmult_compare_compat_r. apply Z.lt_gt, pow2_pos. lia.
  - symmetry. apply Z.compare_lt_iff.
    rewrite (Hn2 ltac:(lia)) in L2. change (2 ^ (53 - 1)) with (2 ^ 52) in L2.
    replace (e2 + 1074) with ((e2 - e1 - 1) + (1 + (e1 + 1074))) by lia.
    rewrite (Z.pow_add_r 2 (e2 - e1 - 1)), (Z.pow_add_r 2 1) by lia.
    change (2 ^ 1) with 2.
    apply (lt_by_exponent _ _ (2 ^ 52)); try (apply pow2_pos; lia); lia.
  - symmetry. apply Z.compare_gt_iff.
    rewrite (Hn1 ltac:(lia)) in L1. change (2 ^ (53 - 1)) with (2 ^ 52) in L1.
    replace (e1 + 1074) with ((e1 - e2 - 1) + (1 + (e2 + 1074))) by lia.
    rewrite (Z.pow_add_r 2 (e1 - e2 - 1)), (Z.pow_add_r 2 1) by lia.
    change (2 ^ 1) with 2.
    apply (lt_by_exponent _ _ (2 ^ 52)); try (apply pow2_pos; lia); lia.
Qed.

Lemma SFulps_finite_pos (m : positive) (e : Z) :
  -1074 <= e -> 0 < SFulps (S754_finite false m e).
Proof.
  intros He. unfold SFulps, cond_Zopp. assert (0 < 2 ^ (e + 1074)) by (apply pow2_pos; lia). nia.
Qed.

(** Among doubles that are finite and not negative, the comparisons are
    those of the whole numbers. *)
Lemma SFcompare_nonneg (x y : float) :
  SFnonneg (Prim2SF x) -> SFnonneg (Prim2SF y) ->
  SFcompare (Prim2SF x) (Prim2SF y) = Some (ulps x ?= ulps y).
Proof.
  unfold ulps. intros Hx Hy.
  destruct (Prim2SF x) as [sx|sx| |sx mx ex] eqn:Ex; try contradiction;
    destruct (Prim2SF y) as [sy|sy| |sy my ey] eqn:Ey; try contradiction.
  - reflexivity.
  - destruct sy; [contradiction|].
    destruct (valid_finite y _ _ _ Ey) as (He & _).
    assert (Hp : 0 < SFulps (S754_finite false my ey)) by (apply SFulps_finite_pos; lia).
    cbn [SFcompare]. f_equal. symmetry. apply Z.compare_lt_iff. exact Hp.
  - destruct sx; [contradiction|].
    destruct (valid_finite x _ _ _ Ex) as (He & _).
    assert (Hp : 0 < SFulps (S754_finite false mx ex)) by (apply SFulps_finite_pos; lia).
    cbn [SFcompare]. f_equal. symmetry. apply Z.compare_gt_iff. exact Hp.
  - destruct sx; [contradiction|]. destruct sy; [contradiction|].
    destruct (valid_finite x _ _ _ Ex) as (Hex & Hdx & Hnx).
    destruct (valid_finite y _ _ _ Ey) as (Hey & Hdy & Hny).
    apply SFcompare_finite; lia || assumption.
Qed.

Lemma leb_nonneg (x y : float) :
  SFnonneg (Prim2SF x) -> SFnonneg (Prim2SF y) ->
  PrimFloat.leb x y = (ulps x <=? ulps y).
Proof.
  intros Hx Hy. rewrite leb_spec. unfold SFleb.
  rewrite (SFcompare_nonneg x y Hx Hy). unfold Z.leb.
  destruct (ulps x ?= ulps y); reflexivity.
Qed.

Lemma ltb_nonneg (x y : float) :
  SFnonneg (Prim2SF x) -> SFnonneg (Prim2SF y) ->
  PrimFloat.ltb x y = (ulps x <? ulps y).
Proof.
  intros Hx Hy. rewrite ltb_spec. unfold SFltb.
  rewrite (SFcompare_nonneg x y Hx Hy). unfold Z.ltb.
  destruct (ulps x ?= ulps y); reflexivity.
Qed.

Lemma ulps_nonneg (x : float) : SFnonneg (Prim2SF x) -> 0 <= ulps x.
Proof.
  unfold ulps. intros H. destruct (Prim2SF x) as [s|s| |s m e] eqn:E;
    try contradiction; [cbn; lia|].
  destruct s; [contradiction|].
  destruct (valid_finite x _ _ _ E) as (He & _).
  apply Z.lt_le_incl, SFulps_finite_pos. lia.
Qed.

(** [0 <= x] and [x <= y] for a finite [y]: [x] is finite and not negative. *)
Lemma between_nonneg (x y : float) :
  SFnonneg (Prim2SF y) ->
  PrimFloat.leb 0 x = true -> PrimFloat.leb x y = true ->
  SFnonneg (Prim2SF x).
Proof.
  intros Hy H0 H1. rewrite leb_spec in H0, H1.
  change (Prim2SF 0) with (S754_zero false) in H0.
  destruct (Prim2SF x) as [s|s| |s m e]; cbn in *.
  - exact I.
  - destruct s; [discriminate|].
    destruct (Prim2SF y) as [sy|sy| |sy my ey]; try contradiction; discriminate.
  - discriminate.
  - destruct s; [discriminate|exact I].
Qed.

(** The difference of two positive finite doubles [y <= x < 2^B]: finite,
    not negative, and the exact difference up to [2^(B - 51)]. *)
Lemma SFsub_finite_bound (B : Z) (mx my : positive) (ex ey : Z) :
  -1074 <= ex -> -1074 <= ey -> Z.min ex ey <= B - 53 -> B <= 1023 ->
  Zpos my * 2 ^ (ey + 1074) <= Zpos mx * 2 ^ (ex + 1074) ->
  Zpos mx * 2 ^ (ex + 1074) < 2 ^ (B + 1074) ->
  SFnonneg (SFsub prec emax (S754_finite false mx ex) (S754_finite false my ey)) /\
  Zpos mx * 2 ^ (ex + 1074) - Zpos my * 2 ^ (ey + 1074) - 4 * 2 ^ (B - 53 + 1074)
    <= SFulps (SFsub prec emax (S754_finite false mx ex) (S754_finite false my ey))
    <= Zpos mx * 2 ^ (ex + 1074) - Zpos my * 2 ^ (ey + 1074) + 2 ^ (B - 53 + 1074).
Proof.
  intros Hex Hey Hmin HB Hle Hlt. unfold SFsub. cbn zeta.
  pose proof (shl_align_spec mx ex (Z.min ex ey)) as Hx.
  pose proof (shl_align_spec my ey (Z.min ex ey)) as Hy.
  destruct (shl_align mx ex (Z.min ex ey)) as [mx' e1]. destruct Hx as [He1 Hmx].
  destruct (shl_align my ey (Z.min ex ey)) as [my' e2]. destruct Hy as [He2 Hmy].
  cbn [fst cond_Zopp].
  assert (E1 : e1 = Z.min ex ey) by lia. assert (E2 : e2 = Z.min ex ey) by lia.
  clear He1 He2. subst e1 e2.
  set (ez := Z.min ex ey) in *.
  assert (Hez : -1074 <= ez <= B - 53) by lia.
  assert (Ux : Zpos mx' * 2 ^ (ez + 1074) = Zpos mx * 2 ^ (ex + 1074)).
  { rewrite Hmx. replace (ex - ez) with ((ex + 1074) - (ez + 1074)) by lia.
    apply scale_eq; lia. }
  assert (Uy : Zpos my' * 2 ^ (ez + 1074) = Zpos my * 2 ^ (ey + 1074)).
  { rewrite Hmy. replace (ey - ez) with ((ey + 1074) - (ez + 1074)) by lia.
    apply scale_eq; lia. }
  assert (Hp : 0 < 2 ^ (ez + 1074)) by (apply pow2_pos; lia).
  assert (Hq : 0 < 2 ^ (B - 53 + 1074)) by (apply pow2_pos; lia).
  assert (UD : (Zpos mx' - Zpos my') * 2 ^ (ez + 1074) =
               Zpos mx * 2 ^ (ex + 1074) - Zpos my * 2 ^ (ey + 1074))
    by (rewrite Z.mul_sub_distr_r; lia).
  destruct (Zpos mx' - Zpos my') as [|d|d] eqn:ED; cbn [binary_normalize].
  - cbn [SFnonneg SFulps]. split; [exact I|lia].
  - assert (Hd : Zpos d * 2 ^ (ez + 1074) < 2 ^ (B + 1074)) by lia.
    destruct (binary_round_bound B d ez Hez HB Hd) as [Hn Hb].
    split; [exact Hn|lia].
  - exfalso. assert (Z.neg d * 2 ^ (ez + 1074) < 0) by nia. lia.
Qed.


Lemma FIXED_DT_ulps_bound : 2 * 2 ^ 1077 < FIXED_DT_ulps /\ 0 < 2 ^ 1077.
Proof.
  unfold FIXED_DT_ulps.
  replace 1077 with (51 + 1026) by lia. rewrite (Z.pow_add_r 2 51 1026) by lia.
  assert (0 < 2 ^ 1026) by (apply pow2_pos; lia).
  change (2 ^ 51) with 2251799813685248. lia.
Qed.

Lemma Prim2SF_FIXED_DT : Prim2SF FIXED_DT = S754_finite false 4691249611844267 (-48).
Proof. vm_compute. reflexivity. Qed.

Lemma FIXED_DT_nonneg : SFnonneg (Prim2SF FIXED_DT).
Proof. rewrite Prim2SF_FIXED_DT. exact I. Qed.

Lemma ulps_FIXED_DT : ulps FIXED_DT = FIXED_DT_ulps.
Proof. unfold ulps. rewrite Prim2SF_FIXED_DT. reflexivity. Qed.

Lemma nonneg_leb_0 (x : float) : SFnonneg (Prim2SF x) -> PrimFloat.leb 0 x = true.
Proof.
  intros H. rewrite leb_spec. change (Prim2SF 0) with (S754_zero false).
  destruct (Prim2SF x) as [s|s| |s m e]; try contradiction; [reflexivity|].
  destruct s; [contradiction|reflexivity].
Qed.

(** One subtraction of [FIXED_DT] from a double [x] with
    [FIXED_DT <= x < 2^B]: the result is finite, not negative, and the exact
    difference up to [2^(B - 51)]. *)
Lemma sub_FIXED_DT (B : Z) (x : float) :
  5 <= B <= 56 ->
  SFnonneg (Prim2SF x) -> ulps x < 2 ^ (B + 1074) ->
  PrimFloat.leb FIXED_DT x = true ->
  SFnonneg (Prim2SF (x - FIXED_DT)) /\
  ulps x - FIXED_DT_ulps - 4 * 2 ^ (B - 53 + 1074)
    <= ulps (x - FIXED_DT)
    <= ulps x - FIXED_DT_ulps + 2 ^ (B - 53 + 1074).
Proof.
  intros HB Hx Hlim Hge.
  rewrite (leb_nonneg _ _ FIXED_DT_nonneg Hx), ulps_FIXED_DT in Hge.
  apply Z.leb_le in Hge.
  unfold ulps in *. rewrite sub_spec, Prim2SF_FIXED_DT.
  destruct (Prim2SF x) as [s|s| |s m e] eqn:E; try (exfalso; exact Hx).
  - exfalso. cbn [SFulps] in Hge. pose proof FIXED_DT_ulps_bound. lia.
  - destruct s; [contradiction|].
    destruct (valid_finite x _ _ _ E) as (He & _).
    cbn [SFulps cond_Zopp] in *.
    change FIXED_DT_ulps with (4691249611844267 * 2 ^ (-48 + 1074)) in *.
    apply (SFsub_finite_bound B m 4691249611844267 e (-48)); try lia.
Qed.


(** Below [2^B] every pass changes the accumulator by [FIXED_DT] up to
    [2^(B - 51)], which is at least 8 of it: the loop ends within [x / 8]
    passes, and what it leaves is [x] less the passes, up to that much a
    pass. *)
Lemma drain_returns (B : Z) : 5 <= B <= 56 -> forall (fuel : nat) (x : float),
  SFnonneg (Prim2SF x) -> ulps x < 2 ^ (B + 1074) ->
  ulps x < Z.of_nat (S fuel) * 2 ^ 1077 ->
  exists n a, drain fuel x = Some (n, a) /\ SFnonneg (Prim2SF a) /\
              Z.abs (ulps a + Z.of_nat n * FIXED_DT_ulps - ulps x)
              <= Z.of_nat n * (4 * 2 ^ (B - 53 + 1074)).
Proof.
  intros HB.
  pose proof FIXED_DT_ulps_bound as [HF HP].
  assert (HE : 0 < 2 ^ (B - 53 + 1074) <= 2 ^ 1077)
    by (split; [apply pow2_pos; lia | apply Z.pow_le_mono_r; lia]).
  induction fuel as [|fuel IH]; intros x Hx Hlim Hfuel.
  - cbn [drain]. rewrite (leb_nonneg _ _ FIXED_DT_nonneg Hx), ulps_FIXED_DT.
    assert (E : (FIXED_DT_ulps <=? ulps x) = false)
      by (apply Z.leb_gt; lia).
    rewrite E. exists O, x. split; [reflexivity|]. split; [exact Hx|].
    cbn [Z.of_nat]. lia.
  - cbn [drain]. destruct (PrimFloat.leb FIXED_DT x) eqn:Hge.
    + destruct (sub_FIXED_DT B x HB Hx Hlim Hge) as [Hn Hu].
      destruct (IH (x - FIXED_DT)%float Hn) as (n & a & -> & Ha & Hle).
      * lia.
      * lia.
      * exists (S n), a. split; [reflexivity|]. split; [exact Ha|].
        rewrite Nat2Z.inj_succ. lia.
    + exists O, x. split; [reflexivity|]. split; [exact Hx|].
      cbn [Z.of_nat]. lia.
Qed.

Lemma Prim2SF_TIME_LIMIT :
  Prim2SF TIME_LIMIT = S754_finite false 4503599627370496 3.
Proof. vm_compute. reflexivity. Qed.

(** [0 <= x <= TIME_LIMIT]: [x] is finite, not negative and below 2^56. *)
Lemma in_range_nonneg (x : float) :
  PrimFloat.leb 0 x = true -> PrimFloat.leb x TIME_LIMIT = true ->
  SFnonneg (Prim2SF x) /\ ulps x < 2 ^ (56 + 1074).
Proof.
  intros H0 H1.
  assert (HL : SFnonneg (Prim2SF TIME_LIMIT))
    by (rewrite Prim2SF_TIME_LIMIT; exact I).
  pose proof (between_nonneg x TIME_LIMIT HL H0 H1) as Hx.
  split; [exact Hx|].
  rewrite (leb_nonneg x TIME_LIMIT Hx HL) in H1. apply Z.leb_le in H1.
  unfold ulps at 2 in H1. rewrite Prim2SF_TIME_LIMIT in H1.
  cbn [SFulps cond_Zopp] in H1. change (3 + 1074) with 1077 in H1.
  change (56 + 1074) with (53 + 1077). rewrite (Z.pow_add_r 2 53 1077) by lia.
  assert (0 < 2 ^ 1077) by (apply pow2_pos; lia).
  change (2 ^ 53) with 9007199254740992. lia.
Qed.

(** A finite double that is not negative and fails [FIXED_DT <= a] is
    below [FIXED_DT]. *)
Lemma nonneg_below_FIXED_DT (a : float) :
  SFnonneg (Prim2SF a) -> PrimFloat.leb FIXED_DT a = false ->
  PrimFloat.ltb a FIXED_DT = true.
Proof.
  intros Ha H. rewrite (leb_nonneg _ _ FIXED_DT_nonneg Ha) in H.
  rewrite (ltb_nonneg _ _ Ha FIXED_DT_nonneg).
  apply Z.leb_gt in H. apply Z.ltb_lt. exact H.
Qed.

End Binary64.

(** The bound [x < 8 * k] on the real number [x] denotes, on [ulps]. *)
Lemma ulps_of_bound (x : float) (k : nat) :
  float_to_R x < 8 * INR k <-> (ulps x < Z.of_nat k * 2 ^ 1077)%Z.
Proof.
  unfold float_to_R.
  assert (HP : (0 < 2 ^ 1074)%Z) by (apply Z.pow_pos_nonneg; lia).
  assert (HR : 0 < IZR (2 ^ 1074)) by (apply IZR_lt; exact HP).
  assert (E : (Z.of_nat k * 2 ^ 1077)%Z = (8 * Z.of_nat k * 2 ^ 1074)%Z).
  { replace 1077%Z with (3 + 1074)%Z by lia.
    rewrite (Z.pow_add_r 2 3 1074) by lia. change (2 ^ 3)%Z with 8%Z. lia. }
  rewrite E.
  assert (EQ : IZR (8 * Z.of_nat k * 2 ^ 1074) = 8 * INR k * IZR (2 ^ 1074))
    by (rewrite !mult_IZR, <- INR_IZR_INZ; reflexivity).
  split; intros H.
  - apply lt_IZR. rewrite EQ.
    apply (Rmult_lt_compat_r _ _ _ HR) in H.
    replace (IZR (ulps x) / IZR (2 ^ 1074) * IZR (2 ^ 1074)) with (IZR (ulps x)) in H
      by (field; lra).
    exact H.
  - apply IZR_lt in H. rewrite EQ in H.
    apply (Rmult_lt_reg_r (IZR (2 ^ 1074))); [exact HR|].
    replace (IZR (ulps x) / IZR (2 ^ 1074) * IZR (2 ^ 1074)) with (IZR (ulps x))
      by (field; lra).
    exact H.
Qed.

(** The real number a double with a negative exponent denotes. *)
Lemma float_to_R_finite (x : float) (m : positive) (e : Z) :
  Prim2SF x = S754_finite false m e -> (-1074 <= e <= 0)%Z ->
  float_to_R x = IZR (Z.pos m) / IZR (2 ^ (- e)).
Proof.
  intros E He. unfold float_to_R, ulps. rewrite E. cbn [SFulps cond_Zopp].
  replace (2 ^ 1074)%Z with (2 ^ (e + 1074) * 2 ^ (- e))%Z
    by (rewrite <- Z.pow_add_r by lia; f_equal; lia).
  rewrite !mult_IZR.
  assert (0 < IZR (2 ^ (e + 1074))) by (apply IZR_lt, Z.pow_pos_nonneg; lia).
  assert (0 < IZR (2 ^ (- e))) by (apply IZR_lt, Z.pow_pos_nonneg; lia).
  field. lra.
Qed.

(** The step the scenes get, [FIXED_DT / 1000] rounded: a little more than
    one sixtieth of a second. *)
Lemma step_seconds_value :
  float_to_R (FIXED_DT / 1000) = 4803839602528529 / 288230376151711744.
Proof.
  unfold float_to_R, ulps.
  assert (E : Prim2SF (FIXED_DT / 1000) = S754_finite false 4803839602528529 (-58))
    by (vm_compute; reflexivity).
  rewrite E. cbn [SFulps cond_Zopp]. change (-58 + 1074)%Z with 1016%Z.
  replace (2 ^ 1074)%Z with (2 ^ 1016 * 288230376151711744)%Z.
  - rewrite !mult_IZR.
    assert (0 < IZR (2 ^ 1016)) by (apply IZR_lt, Z.pow_pos_nonneg; lia).
    field. lra.
  - replace 1074%Z with (1016 + 58)%Z by lia.
    rewrite (Z.pow_add_r 2 1016 58) by lia. reflexivity.
Qed.

(** ** The clock does not reach the scenes *)

Lemma game_enter_set_timing v t st :
  game_enter v (set_timing t st) = set_timing t (game_enter v st).
Proof. destruct v; [reflexivity|]. rewrite !game_enter_dynamic. reflexivity. Qed.

Lemma setScene_set_timing v name t st :
  setScene v name (set_timing t st) = set_timing t (setScene v name st).
Proof.
  unfold setScene. cbn [current set_timing].
  destruct (SceneName_eq_dec name (current st)); [reflexivity|].
  rewrite !call_exit_eq.
  destruct name; [reflexivity | | reflexivity].
  cbn [current set_current]. rewrite !call_enter_game.
  change (log (Enter game) (set_current game (log (Exit (current st)) (set_timing t st))))
    with (set_timing t (log (Enter game) (set_current game (log (Exit (current st)) st)))).
  rewrite game_enter_set_timing.
  destruct (game_enter_frame v
              (log (Enter game) (set_current game (log (Exit (current st)) st))))
    as (Hc & _).
  cbn [current set_timing]. reflexivity.
Qed.

Lemma game_update_set_timing v dt t st :
  game_update v dt (set_timing t st) = set_timing t (game_update v dt st).
Proof.
  rewrite !game_update_eq. cbn zeta.
  change (coins_after v dt (set_timing t st)) with (coins_after v dt st).
  change (collected v dt (set_timing t st)) with (set_timing t (collected v dt st)).
  change (keys (input (set_timing t st))) with (keys (input st)).
  destruct (coins_after v dt st), (has (keys (input st)) "Escape");
    rewrite ?setScene_set_timing; reflexivity.
Qed.

Lemma step_set_timing v dt t st :
  step v dt (set_timing t st) = set_timing t (step v dt st).
Proof.
  unfold step. cbn [current set_timing].
  destruct (current st); cbn [scene_update].
  - unfold menu_update. cbn [input set_timing].
    destruct (has (keys (input st)) "Enter" || down (mouse (input st)));
      [apply setScene_set_timing | reflexivity].
  - apply game_update_set_timing.
  - unfold pause_update. cbn [input set_timing].
    destruct (has (keys (input st)) "Escape");
      [apply setScene_set_timing | reflexivity].
Qed.

Lemma simulate_step_set_timing v t st :
  simulate_step v (set_timing t st) = set_timing t (simulate_step v st).
Proof.
  unfold simulate_step. cbn [current set_timing].
  change (log (Update (current st) (FIXED_DT / 1000)%float) (set_timing t st))
    with (set_timing t (log (Update (current st) (FIXED_DT / 1000)%float) st)).
  apply step_set_timing.
Qed.

Lemma set_timing_twice t1 t2 st : set_timing t2 (set_timing t1 st) = set_timing t2 st.
Proof. reflexivity. Qed.

(** What a world with another clock still is. *)
Lemma set_timing_frame t st :
  gs (set_timing t st) = gs st /\ current (set_timing t st) = current st /\
  stateEl (set_timing t st) = stateEl st /\ trace (set_timing t st) = trace st /\
  input (set_timing t st) = input st /\ rng (set_timing t st) = rng st /\
  WIDTH (set_timing t st) = WIDTH st /\ HEIGHT (set_timing t st) = HEIGHT st /\
  timing (set_timing t st) = t.
Proof. cbn. tauto. Qed.

Lemma simulate_step_timing v st : timing (simulate_step v st) = timing st.
Proof. unfold simulate_step, step. rewrite scene_update_timing. reflexivity. Qed.

Lemma simulate_step_dts v st :
  update_dts (trace (simulate_step v st)) =
  update_dts (trace st) ++ [(FIXED_DT / 1000)%float].
Proof.
  unfold simulate_step, step. rewrite scene_update_dts.
  cbn [trace log]. rewrite update_dts_app. reflexivity.
Qed.

Lemma simulate_steps_dts v n st :
  update_dts (trace (Nat.iter n (simulate_step v) st)) =
  update_dts (trace st) ++ repeat (FIXED_DT / 1000)%float n.
Proof.
  induction n as [|n IH].
  - cbn. rewrite app_nil_r. reflexivity.
  - rewrite Nat.iter_succ, simulate_step_dts, IH, <- app_assoc.
    f_equal. cbn [repeat]. symmetry. apply repeat_cons.
Qed.

(** ** One pass of the loop, and the loop *)

(** One pass runs the scene update with [dt = FIXED_DT / 1000] and takes
    [FIXED_DT] off the accumulator, in binary64. *)
Lemma fixed_step_eq v st :
  fixed_step v st =
  set_timing (set_accumulator (accumulator (timing st) - FIXED_DT)%float (timing st))
             (simulate_step v st).
Proof.
  unfold fixed_step, simulate_step, step. cbn zeta.
  rewrite scene_update_timing. reflexivity.
Qed.

Lemma fixed_step_timing v st :
  timing (fixed_step v st) =
  set_accumulator (accumulator (timing st) - FIXED_DT)%float (timing st).
Proof. rewrite fixed_step_eq. reflexivity. Qed.

(** A fixed step on a world whose clock is [t]: the scene update, then the
    clock [t] with [FIXED_DT] taken off its accumulator. *)
Lemma fixed_step_set_timing v t st :
  fixed_step v (set_timing t st) =
  set_timing (set_accumulator (accumulator t - FIXED_DT)%float t) (simulate_step v st).
Proof. rewrite fixed_step_eq, simulate_step_set_timing. reflexivity. Qed.

Lemma loop_frame_clock v fuel now st :
  loop v fuel now st = fixed_steps v fuel (set_timing (frame_clock now (timing st)) st).
Proof. reflexivity. Qed.

Lemma frame_clock_spec now t :
  accumulator (frame_clock now t) = (accumulator t + (now - last t))%float /\
  last (frame_clock now t) = now.
Proof.
  unfold frame_clock. cbn zeta.
  destruct (PrimFloat.leb 1000 (fpsTimer t + (now - last t))); split; reflexivity.
Qed.

(** What [drain] returns: the number of passes, within the fuel; what is
    left, the rounded subtractions one after the other; the test that ended
    the loop, and the tests that kept it going. *)
Lemma drain_spec : forall fuel x n a,
  drain fuel x = Some (n, a) ->
  (n <= fuel)%nat /\
  a = Nat.iter n (fun y => (y - FIXED_DT)%float) x /\
  PrimFloat.leb FIXED_DT a = false /\
  (forall i, (i < n)%nat ->
     PrimFloat.leb FIXED_DT (Nat.iter i (fun y => (y - FIXED_DT)%float) x) = true).
Proof.
  induction fuel as [|fuel IH]; intros x n a H; cbn [drain] in H;
    destruct (PrimFloat.leb FIXED_DT x) eqn:Hge; try discriminate.
  - injection H as <- <-. repeat split; [lia | exact Hge | intros i Hi; lia].
  - destruct (drain fuel (x - FIXED_DT)%float) as [[n' a']|] eqn:E; [|discriminate].
    injection H as <- <-.
    destruct (IH _ _ _ E) as (Hn & Ha & Hex & Hgo).
    split; [lia|]. split; [rewrite Nat.iter_succ_r; exact Ha|]. split; [exact Hex|].
    intros [|i] Hi; [exact Hge|].
    rewrite Nat.iter_succ_r. apply Hgo. lia.
  - injection H as <- <-. repeat split; [lia | exact Hge | intros i Hi; lia].
Qed.

(** The loop on a world whose clock is [t] runs as many scene updates as
    [drain] counts passes, each with the constant step, and leaves the clock
    [t] with what [drain] leaves in the accumulator. *)
Lemma fixed_steps_drain v : forall fuel t st,
  fixed_steps v fuel (set_timing t st) =
  match drain fuel (accumulator t) with
  | Some (n, a) =>
    Some (set_timing (set_accumulator a t) (Nat.iter n (simulate_step v) st))
  | None => None
  end.
Proof.
  induction fuel as [|fuel IH]; intros t st;
    cbn [fixed_steps drain timing set_timing];
    destruct (PrimFloat.leb FIXED_DT (accumulator t)); try reflexivity.
  - destruct t; reflexivity.
  - rewrite fixed_step_set_timing, IH.
    cbn [accumulator set_accumulator].
    destruct (drain fuel (accumulator t - FIXED_DT)%float) as [[n a]|];
      [|reflexivity].
    rewrite Nat.iter_succ_r. reflexivity.
  - destruct t; reflexivity.
Qed.

Lemma loop_drain v fuel now st :
  loop v fuel now st =
  match drain fuel (accumulator (frame_clock now (timing st))) with
  | Some (n, a) =>
    Some (set_timing (set_accumulator a (frame_clock now (timing st)))
                     (Nat.iter n (simulate_step v) st))
  | None => None
  end.
Proof. rewrite loop_frame_clock. apply fixed_steps_drain. Qed.

(** From an accumulated time of 1e22 ms no pass changes the accumulator:
    [1e22 - FIXED_DT] rounds back to [1e22], and the loop never ends. *)
Lemma drain_hangs : forall fuel, drain fuel 1e22 = None.
Proof.
  induction fuel as [|fuel IH]; cbn [drain].
  - reflexivity.
  - change (PrimFloat.leb FIXED_DT 1e22) with true. cbn iota.
    change (1e22 - FIXED_DT)%float with 1e22%float. rewrite IH. reflexivity.
Qed.

(** The bound [x < 2^k] on the real number [x] denotes, on [ulps]. *)
Lemma ulps_of_limit (x : float) (k : Z) :
  (0 <= k)%Z -> float_to_R x < IZR (2 ^ k) <-> (ulps x < 2 ^ (k + 1074))%Z.
Proof.
  unfold float_to_R. intros Hk.
  assert (HR : 0 < IZR (2 ^ 1074)) by (apply IZR_lt, Z.pow_pos_nonneg; lia).
  rewrite Z.pow_add_r by lia.
  split; intros H.
  - apply lt_IZR. rewrite mult_IZR.
    apply (Rmult_lt_compat_r _ _ _ HR) in H.
    replace (IZR (ulps x) / IZR (2 ^ 1074) * IZR (2 ^ 1074)) with (IZR (ulps x)) in H
      by (field; lra).
    exact H.
  - apply IZR_lt in H. rewrite mult_IZR in H.
    apply (Rmult_lt_reg_r (IZR (2 ^ 1074))); [exact HR|].
    replace (IZR (ulps x) / IZR (2 ^ 1074) * IZR (2 ^ 1074)) with (IZR (ulps x))
      by (field; lra).
    exact H.
Qed.

Lemma float_to_R_FIXED_DT : 16 < float_to_R FIXED_DT < 17.
Proof.
  rewrite (float_to_R_finite FIXED_DT 4691249611844267 (-48));
    [|vm_compute; reflexivity|lia].
  change (2 ^ (- -48))%Z with 281474976710656%Z. lra.
Qed.

(** With [0 <= x <= TIME_LIMIT] and [x < 2^k] the loop ends within [x / 8]
    passes, on a double that is not negative and below [FIXED_DT]; what it
    leaves and the passes made add up to [x] but for a drift of at most
    [2^(k - 51)] a pass, so that the number of passes is the floor of
    [(x + drift) / FIXED_DT]. *)
Lemma drain_in_range (k : Z) (fuel : nat) (x : float) :
  (5 <= k <= 56)%Z ->
  PrimFloat.leb 0 x = true -> PrimFloat.leb x TIME_LIMIT = true ->
  float_to_R x < IZR (2 ^ k) ->
  float_to_R x < 8 * INR (S fuel) ->
  exists n a,
    drain fuel x = Some (n, a) /\
    PrimFloat.leb 0 a = true /\ PrimFloat.ltb a FIXED_DT = true /\
    Rabs (float_to_R a + INR n * float_to_R FIXED_DT - float_to_R x)
      <= INR n * IZR (2 ^ k) / IZR (2 ^ 51) /\
    Z.of_nat n =
      Zfloor ((float_to_R a + INR n * float_to_R FIXED_DT) / float_to_R FIXED_DT).
Proof.
  intros Hk H0 H1 Hlim Hf.
  destruct (in_range_nonneg x H0 H1) as [Hx _].
  assert (Hlim' : (ulps x < 2 ^ (k + 1074))%Z)
    by (apply ulps_of_limit; [lia|exact Hlim]).
  destruct (drain_returns k Hk fuel x Hx Hlim' (proj1 (ulps_of_bound x (S fuel)) Hf))
    as (n & a & Hd & Ha & Hdrift).
  exists n, a. split; [exact Hd|].
  assert (HaF : PrimFloat.ltb a FIXED_DT = true)
    by (apply nonneg_below_FIXED_DT; [exact Ha | apply (drain_spec fuel x n a Hd)]).
  split; [apply nonneg_leb_0; exact Ha|]. split; [exact HaF|].
  assert (HP : 0 < IZR (2 ^ 1074)) by (apply IZR_lt, Z.pow_pos_nonneg; lia).
  assert (HK : 0 < IZR (2 ^ k)) by (apply IZR_lt, Z.pow_pos_nonneg; lia).
  assert (H51 : 0 < IZR (2 ^ 51)) by (apply IZR_lt, Z.pow_pos_nonneg; lia).
  pose proof (pos_INR n) as Hn.
  pose proof float_to_R_FIXED_DT as HF.
  split.
  - (* the drift, from whole numbers to real numbers *)
    set (z := (ulps a + Z.of_nat n * FIXED_DT_ulps - ulps x)%Z) in *.
    assert (E : float_to_R a + INR n * float_to_R FIXED_DT - float_to_R x
                = IZR z / IZR (2 ^ 1074)).
    { unfold z, float_to_R. rewrite ulps_FIXED_DT.
      rewrite minus_IZR, plus_IZR, mult_IZR, <- INR_IZR_INZ. field. lra. }
    rewrite E. unfold Rdiv at 1. rewrite Rabs_mult, (Rabs_pos_eq (/ _))
      by (left; apply Rinv_0_lt_compat; exact HP).
    rewrite Rabs_Zabs.
    apply IZR_le in Hdrift. rewrite !mult_IZR, <- INR_IZR_INZ in Hdrift.
    assert (E2 : IZR 4 * IZR (2 ^ (k - 53 + 1074)) * IZR (2 ^ 51)
                 = IZR (2 ^ k) * IZR (2 ^ 1074)).
    { rewrite <- !mult_IZR. f_equal.
      change 4%Z with (2 ^ 2)%Z. rewrite <- !Z.pow_add_r by lia. f_equal. lia. }
    apply (Rmult_le_reg_r (IZR (2 ^ 1074) * IZR (2 ^ 51))); [nra|].
    replace (IZR (Z.abs z) * / IZR (2 ^ 1074) * (IZR (2 ^ 1074) * IZR (2 ^ 51)))
      with (IZR (Z.abs z) * IZR (2 ^ 51)) by (field; lra).
    replace (INR n * IZR (2 ^ k) / IZR (2 ^ 51) * (IZR (2 ^ 1074) * IZR (2 ^ 51)))
      with (INR n * (IZR (2 ^ k) * IZR (2 ^ 1074))) by (field; lra).
    rewrite <- E2. nra.
  - (* the count *)
    symmetry. apply Zfloor_eq. rewrite <- INR_IZR_INZ.
    assert (A0 : 0 <= float_to_R a).
    { unfold float_to_R. apply Rle_mult_inv_pos; [|exact HP].
      apply IZR_le. apply ulps_nonneg. exact Ha. }
    assert (A1 : float_to_R a < float_to_R FIXED_DT).
    { rewrite (ltb_nonneg _ _ Ha FIXED_DT_nonneg) in HaF. apply Z.ltb_lt in HaF.
      unfold float_to_R. apply Rmult_lt_compat_r; [apply Rinv_0_lt_compat; exact HP|].
      apply IZR_lt. exact HaF. }
    replace ((float_to_R a + INR n * float_to_R FIXED_DT) / float_to_R FIXED_DT)
      with (INR n + float_to_R a / float_to_R FIXED_DT) by (field; lra).
    assert (0 <= float_to_R a / float_to_R FIXED_DT < 1).
    { split.
      - apply Rle_mult_inv_pos; lra.
      - apply (Rmult_lt_reg_r (float_to_R FIXED_DT)); [lra|].
        replace (float_to_R a / float_to_R FIXED_DT * float_to_R FIXED_DT)
          with (float_to_R a) by (field; lra).
        lra. }
    lra.
Qed.

(** ** C2: the fixed steps of a frame *)

(** C2 (amended).  In binary64, as the code computes: a frame brings the
    accumulator to [x = accumulator + (now - last)] and, when the loop
    returns, it has run some number [n] of scene updates one after the
    other, each with the same step [FIXED_DT / 1000] and nothing else done to
    the world between them; [n] is the number of times [FIXED_DT] could be
    taken off [x], rounding after each subtraction, while the result still
    tested [>= FIXED_DT]; the accumulator left is that rounded remainder and
    tests below [FIXED_DT].

    For [0 <= x <= 2^55] the loop does return, within [x / 8] passes, and the
    accumulator left is at least 0 and less than [FIXED_DT]; with [x < 2^k]
    the accumulator left and the [n] steps add up to [x] but for a drift of
    at most [2^(k - 51)] a step, the rounding of the subtractions, and [n] is
    the floor of [(x + drift) / FIXED_DT], not always that of
    [x / FIXED_DT]: see the counterexample.  Beyond that range the loop need
    not return: from [x = 1e22] it never does. *)
Theorem C2_fixed_steps_binary64
  (v : Variant) (fuel : nat) (now : float) (st : World) :
  let clock := frame_clock now (timing st) in
  let x := (accumulator (timing st) + (now - last (timing st)))%float in
  let pass := fun a : float => (a - FIXED_DT)%float in
  (forall st', loop v fuel now st = Some st' ->
     exists n : nat,
       (n <= fuel)%nat /\
       st' = set_timing (set_accumulator (Nat.iter n pass x) clock)
                        (Nat.iter n (simulate_step v) st) /\
       update_dts (trace st') =
         update_dts (trace st) ++ repeat (FIXED_DT / 1000)%float n /\
       accumulator (timing st') = Nat.iter n pass x /\
       PrimFloat.leb FIXED_DT (accumulator (timing st')) = false /\
       (forall i, (i < n)%nat ->
          PrimFloat.leb FIXED_DT (Nat.iter i pass x) = true)) /\
  (forall k : Z,
     (5 <= k <= 56)%Z ->
     PrimFloat.leb 0 x = true -> PrimFloat.leb x TIME_LIMIT = true ->
     float_to_R x < IZR (2 ^ k) ->
     float_to_R x < 8 * INR (S fuel) ->
     exists (n : nat) (st' : World) (drift : R),
       loop v fuel now st = Some st' /\
       st' = set_timing (set_accumulator (Nat.iter n pass x) clock)
                        (Nat.iter n (simulate_step v) st) /\
       PrimFloat.leb 0 (accumulator (timing st')) = true /\
       PrimFloat.ltb (accumulator (timing st')) FIXED_DT = true /\
       float_to_R (accumulator (timing st')) + INR n * float_to_R FIXED_DT
         = float_to_R x + drift /\
       Rabs drift <= INR n * IZR (2 ^ k) / IZR (2 ^ 51) /\
       Z.of_nat n = Zfloor ((float_to_R x + drift) / float_to_R FIXED_DT)) /\
  (x = 1e22%float -> loop v fuel now st = None).
Proof.
  cbn zeta. rewrite loop_drain.
  destruct (frame_clock_spec now (timing st)) as [-> _].
  set (x := (accumulator (timing st) + (now - last (timing st)))%float).
  split; [|split].
  - intros st' H.
    destruct (drain fuel x) as [[n a]|] eqn:E; [|discriminate].
    injection H as <-.
    destruct (drain_spec _ _ _ _ E) as (Hn & Ha & Hex & Hgo).
    exists n. rewrite <- Ha.
    cbn [timing set_timing accumulator set_accumulator trace].
    split; [exact Hn|]. split; [reflexivity|].
    split; [apply simulate_steps_dts|]. split; [reflexivity|].
    split; [exact Hex | exact Hgo].
  - intros k Hk H0 H1 Hlim Hf.
    destruct (drain_in_range k fuel x Hk H0 H1 Hlim Hf)
      as (n & a & Hd & Ha0 & HaF & Hdrift & Hfloor).
    destruct (drain_spec _ _ _ _ Hd) as (_ & Ha & _).
    rewrite Hd.
    exists n,
      (set_timing (set_accumulator a (frame_clock now (timing st)))
                  (Nat.iter n (simulate_step v) st)),
      (float_to_R a + INR n * float_to_R FIXED_DT - float_to_R x).
    cbn [timing set_timing accumulator set_accumulator].
    split; [reflexivity|]. split; [rewrite <- Ha; reflexivity|].
    split; [exact Ha0|]. split; [exact HaF|]. split; [ring|].
    split; [exact Hdrift|].
    replace (float_to_R x
             + (float_to_R a + INR n * float_to_R FIXED_DT - float_to_R x))
      with (float_to_R a + INR n * float_to_R FIXED_DT) by ring.
    exact Hfloor.
  - intros ->. rewrite drain_hangs. reflexivity.
Qed.

Lemma timing_world_of W H ks g cur :
  timing (world_of W H ks g cur) = mkTiming 0 0 0 0 0.
Proof. reflexivity. Qed.

(** A frame 40 ms after the last one, from an empty accumulator: the loop
    returns, the accumulator left is in range, and the drift is at most
    [n * 2^-45]. *)
Lemma C2_fixed_steps_binary64_witness :
  exists (n : nat) (st' : World) (drift : R),
    loop DynamicRes 5 40 (scenario_world []) = Some st' /\
    PrimFloat.leb 0 (accumulator (timing st')) = true /\
    PrimFloat.ltb (accumulator (timing st')) FIXED_DT = true /\
    Rabs drift <= INR n * IZR (2 ^ 6) / IZR (2 ^ 51) /\
    Z.of_nat n = Zfloor ((float_to_R 40 + drift) / float_to_R FIXED_DT).
Proof.
  assert (Hk : (5 <= 6 <= 56)%Z) by lia.
  assert (H0 : PrimFloat.leb 0 (accumulator (timing (scenario_world []))
                                + (40 - last (timing (scenario_world [])))) = true)
    by reflexivity.
  assert (H1 : PrimFloat.leb (accumulator (timing (scenario_world []))
                              + (40 - last (timing (scenario_world []))))
                             TIME_LIMIT = true)
    by reflexivity.
  assert (E : (accumulator (timing (scenario_world []))
               + (40 - last (timing (scenario_world []))))%float = 40%float)
    by reflexivity.
  assert (Hlim : float_to_R (accumulator (timing (scenario_world []))
                             + (40 - last (timing (scenario_world []))))
                 < IZR (2 ^ 6)).
  { rewrite E. apply ulps_of_limit; [lia|]. apply Z.ltb_lt. vm_compute. reflexivity. }
  assert (Hf : float_to_R (accumulator (timing (scenario_world []))
                           + (40 - last (timing (scenario_world []))))
               < 8 * INR 6).
  { rewrite E. apply ulps_of_bound. apply Z.ltb_lt. vm_compute. reflexivity. }
  destruct (proj1 (proj2 (C2_fixed_steps_binary64 DynamicRes 5 40 (scenario_world [])))
              6%Z Hk H0 H1 Hlim Hf)
    as (n & st' & drift & Hrun & _ & Ha0 & HaF & _ & Hd & Hfl).
  exists n, st', drift.
  split; [exact Hrun|]. split; [exact Ha0|]. split; [exact HaF|].
  split; [exact Hd|]. rewrite E in Hfl. exact Hfl.
Defined.

(** Against the claim as stated.  From an empty accumulator a frame of 50 ms
    runs 2 steps and leaves 16.666666666666661 (the double written in
    hexadecimal below), which is less than [FIXED_DT] = 16.666666666666668,
    while [50 / FIXED_DT] is 3, in binary64 and with [FIXED_DT] read as the
    exact 1000/60 alike.  A frame of 200 ms runs 12 steps and leaves 2^-47,
    while the quotient of the real numbers the doubles 200 and [FIXED_DT]
    denote has floor 11. *)
Lemma C2_rounding_counterexample :
  accumulator (timing (scenario_world [])) = 0%float /\
  last (timing (scenario_world [])) = 0%float /\
  loop DynamicRes 5 50 (scenario_world []) =
    Some (set_timing (mkTiming 50 0x1.0aaaaaaaaaaa9p+4 1 50 0)
                     (Nat.iter 2 (simulate_step DynamicRes) (scenario_world []))) /\
  PrimFloat.ltb 0x1.0aaaaaaaaaaa9p+4 FIXED_DT = true /\
  (50 / FIXED_DT)%float = 3%float /\
  Zfloor (50 / (1000 / 60)) = 3%Z /\
  loop DynamicRes 20 200 (scenario_world []) =
    Some (set_timing (mkTiming 200 0x1p-47 1 200 0)
                     (Nat.iter 12 (simulate_step DynamicRes) (scenario_world []))) /\
  Zfloor (float_to_R 200 / float_to_R FIXED_DT) = 11%Z.
Proof.
  split; [reflexivity|]. split; [reflexivity|].
  split.
  { rewrite loop_drain. unfold scenario_world at 1 2. rewrite timing_world_of.
    replace (frame_clock 50 (mkTiming 0 0 0 0 0)) with (mkTiming 50 50 1 50 0)
      by (vm_compute; reflexivity).
    cbn [accumulator].
    replace (drain 5 50) with (Some (2%nat, 0x1.0aaaaaaaaaaa9p+4%float))
      by (vm_compute; reflexivity).
    reflexivity. }
  split; [reflexivity|]. split; [reflexivity|].
  split; [apply Zfloor_eq; lra|].
  split.
  { rewrite loop_drain. unfold scenario_world at 1 2. rewrite timing_world_of.
    replace (frame_clock 200 (mkTiming 0 0 0 0 0)) with (mkTiming 200 200 1 200 0)
      by (vm_compute; reflexivity).
    cbn [accumulator].
    replace (drain 20 200) with (Some (12%nat, 0x1p-47%float))
      by (vm_compute; reflexivity).
    reflexivity. }
  rewrite (float_to_R_finite 200 7036874417766400 (-45)),
          (float_to_R_finite FIXED_DT 4691249611844267 (-48));
    try (vm_compute; reflexivity); try lia.
  change (2 ^ (- -45))%Z with 35184372088832%Z.
  change (2 ^ (- -48))%Z with 281474976710656%Z.
  apply Zfloor_eq. lra.
Qed.

(** ** C1: pausing and resuming *)

(** C1 (the code against the claim).  From [two_coin_world] with Escape
    held, the first step takes a coin (score 10, one coin left) and pauses;
    the next step resumes.  In the dynamic-resolution program the resumed
    scene is a new game: score 0, ten fresh coins, not the state that was
    paused.  In the fixed-resolution program the resumed state is the paused
    one, but there no transition into the game scene, the one from menu
    included, resets anything. *)
Theorem C1_resume_after_pause :
  (let st1 := step DynamicRes (1 / 60) two_coin_world in
   let st2 := step DynamicRes (1 / 60) st1 in
   current st1 = pause /\ score (gs st1) = 10%Z /\
   coins (gs st1) = [Rect.mk 0 0 12 12] /\
   current st2 = game /\ score (gs st2) = 0%Z /\
   List.length (coins (gs st2)) = 10%nat /\
   Rect.x (player (gs st2)) = 400 /\ Rect.y (player (gs st2)) = 300 /\
   gs st2 <> gs st1) /\
  (let st1 := step FixedRes (1 / 60) two_coin_world in
   let st2 := step FixedRes (1 / 60) st1 in
   current st1 = pause /\ current st2 = game /\ gs st2 = gs st1) /\
  (forall st : World, gs (setScene FixedRes game st) = gs st).
Proof.
  split; [|split].
  - cbn zeta. destruct (two_coin_world_step DynamicRes) as (Hcur & Hsc & Hco).
    cbn zeta in Hcur, Hsc, Hco.
    set (st1 := step DynamicRes (1 / 60) two_coin_world) in *.
    assert (Hesc : has (keys (input st1)) "Escape" = true)
      by (unfold st1; rewrite step_input; reflexivity).
    assert (Hst2 : step DynamicRes (1 / 60) st1 = setScene DynamicRes game st1).
    { unfold step at 1. rewrite Hcur. cbn [scene_update].
      apply pause_update_escape. exact Hesc. }
    assert (Hgs : gs (step DynamicRes (1 / 60) st1) =
                  mkGameScene
                    (move_to (WIDTH st1 / 2) (HEIGHT st1 / 2) (player (gs st1)))
                    (fresh_coins (WIDTH st1) (HEIGHT st1)
                                 (rand_seq (rng st1)) (rand_pos (rng st1)) 10)
                    0%Z).
    { rewrite Hst2. apply setScene_game_dynamic_gs. rewrite Hcur. discriminate. }
    assert (HW : WIDTH st1 = 800) by (unfold st1, step; apply game_update_frame).
    assert (HH : HEIGHT st1 = 600) by (unfold st1, step; apply game_update_frame).
    repeat split; try assumption.
    + rewrite Hst2. apply setScene_current.
    + rewrite Hgs. reflexivity.
    + rewrite Hgs. apply fresh_coins_length.
    + rewrite Hgs. cbn [player move_to box Rect.x]. rewrite HW. lra.
    + rewrite Hgs. cbn [player move_to box Rect.y]. rewrite HH. lra.
    + intro E. rewrite Hgs in E. apply (f_equal score) in E.
      rewrite Hsc in E. discriminate.
  - cbn zeta. destruct (two_coin_world_step FixedRes) as (Hcur & _).
    cbn zeta in Hcur.
    set (st1 := step FixedRes (1 / 60) two_coin_world) in *.
    assert (Hesc : has (keys (input st1)) "Escape" = true)
      by (unfold st1; rewrite step_input; reflexivity).
    assert (Hst2 : step FixedRes (1 / 60) st1 = setScene FixedRes game st1).
    { unfold step at 1. rewrite Hcur. cbn [scene_update].
      apply pause_update_escape. exact Hesc. }
    split; [exact Hcur|]. rewrite Hst2.
    split; [apply setScene_current | apply setScene_fixed_gs].
  - intro st. apply setScene_fixed_gs.
Qed.

(** * Further properties of the program *)

(** ** The overlap test *)

(** The overlap test does not depend on the order of its arguments; a
    rectangle overlaps itself exactly when it has a positive width and a
    positive height; and two rectangles of which one lies wholly to one side
    of the other (touching included) never overlap, however the other axis
    stands. *)
Theorem rectsOverlap_symmetric (a b : Rect.t) :
  rectsOverlap a b = rectsOverlap b a /\
  (rectsOverlap a a = true <-> 0 < Rect.w a /\ 0 < Rect.h a) /\
  (Rect.x a + Rect.w a <= Rect.x b \/ Rect.x b + Rect.w b <= Rect.x a \/
   Rect.y a + Rect.h a <= Rect.y b \/ Rect.y b + Rect.h b <= Rect.y a ->
   rectsOverlap a b = false).
Proof.
  split; [|split].
  - apply eq_true_iff_eq. rewrite !rectsOverlap_true_iff. tauto.
  - rewrite rectsOverlap_true_iff. split; intros; repeat split; lra.
  - intros H. apply not_true_is_false. intro Hov.
    apply rectsOverlap_true_iff in Hov. lra.
Qed.

(** ** The pressed-key set *)

Lemma has_app ks1 ks2 k : has (ks1 ++ ks2) k = has ks1 k || has ks2 k.
Proof. unfold has. apply existsb_app. Qed.

Lemma has_add ks k k' :
  has (add ks k) k' = has ks k' || String.eqb k' k.
Proof.
  unfold add. destruct (has ks k) eqn:Hk.
  - destruct (String.eqb_spec k' k) as [->|_]; [|rewrite orb_false_r; reflexivity].
    rewrite Hk. reflexivity.
  - rewrite has_app. cbn. rewrite orb_false_r. reflexivity.
Qed.

Lemma has_delete ks k k' :
  has (delete ks k) k' = has ks k' && negb (String.eqb k' k).
Proof.
  unfold has, delete. induction ks as [|a ks IH]; [reflexivity|].
  cbn [filter existsb].
  destruct (String.eqb k a) eqn:Hka; cbn [negb existsb]; rewrite IH.
  - apply String.eqb_eq in Hka. subst a.
    destruct (String.eqb k' k); cbn; [apply andb_false_r | reflexivity].
  - destruct (String.eqb k' a) eqn:Hk'a; cbn; [|reflexivity].
    apply String.eqb_eq in Hk'a. subst a.
    rewrite String.eqb_sym, Hka. reflexivity.
Qed.

(** The key handlers keep a set, not a count: after [keydown k] the key is
    held, a repeated [keydown] (key repeat) changes nothing, after [keyup k] it
    is not held however many [keydown]s came before, no other key is touched,
    and nothing but the keys changes. *)
Theorem key_events_set_semantics (k k' : string) (st : World) :
  has (keys (input (keydown k st))) k = true /\
  keydown k (keydown k st) = keydown k st /\
  has (keys (input (keyup k st))) k = false /\
  has (keys (input (keyup k (keydown k (keydown k st))))) k = false /\
  (k' <> k ->
   has (keys (input (keydown k st))) k' = has (keys (input st)) k' /\
   has (keys (input (keyup k st))) k' = has (keys (input st)) k') /\
  gs (keydown k st) = gs st /\ current (keydown k st) = current st /\
  gs (keyup k st) = gs st /\ current (keyup k st) = current st.
Proof.
  assert (Kd : forall s, keys (input (keydown k s)) = add (keys (input s)) k)
    by reflexivity.
  assert (Ku : forall s, keys (input (keyup k s)) = delete (keys (input s)) k)
    by reflexivity.
  assert (Hdown : has (keys (input (keydown k st))) k = true).
  { rewrite Kd, has_add, String.eqb_refl. apply orb_true_r. }
  split; [exact Hdown|]. split.
  { unfold keydown at 1. rewrite Kd. unfold add at 1. rewrite <- Kd, Hdown.
    reflexivity. }
  split; [rewrite Ku, has_delete, String.eqb_refl; apply andb_false_r|].
  split; [rewrite Ku, has_delete, String.eqb_refl; apply andb_false_r|].
  split; [|repeat split; reflexivity].
  intros Hne. rewrite Kd, Ku, has_add, has_delete.
  destruct (String.eqb_spec k' k) as [E|_]; [contradiction|].
  rewrite orb_false_r, andb_true_r. tauto.
Qed.

(** ** Spawning coins and building the scene *)

(** [spawnCoins(n)] returns exactly [n] coins of size 12x12, draws exactly
    [2 n] random numbers and changes nothing else; with random numbers in
    [0, 1) and a world of at least 16x16 every coin lies inside the world with
    a margin of 4 to the right and to the bottom. *)
Theorem spawnCoins_count_and_bounds (v : Variant) (n : nat) (st : World) :
  let cs := fst (spawnCoins v n st) in
  let st' := snd (spawnCoins v n st) in
  List.length cs = n /\
  st' = set_rng (mkRng (rand_seq (rng st)) (rand_pos (rng st) + 2 * n)) st /\
  Forall (fun c : Coin => Rect.w c = 12 /\ Rect.h c = 12) cs /\
  ((forall i, 0 <= rand_seq (rng st) i < 1) ->
   16 <= worldWidth v st -> 16 <= worldHeight v st ->
   Forall (fun c : Coin =>
             0 <= Rect.x c /\ Rect.x c + Rect.w c + 4 <= worldWidth v st /\
             0 <= Rect.y c /\ Rect.y c + Rect.h c + 4 <= worldHeight v st) cs).
Proof.
  cbn zeta. rewrite spawnCoins_eq. cbn [fst snd].
  split; [apply fresh_coins_length|]. split; [reflexivity|].
  split.
  - generalize (rand_pos (rng st)). induction n as [|n IH]; intros k; cbn [fresh_coins].
    + constructor.
    + constructor; [cbn; tauto | apply IH].
  - intros Hs HW HH.
    eapply Forall_impl; [|apply (fresh_coins_within _ _ _ Hs HW HH)].
    intros c (Hx & Hy & Hw & Hh). rewrite Hw, Hh. lra.
Qed.

(** ** Start-up *)

Lemma createGameScene_eq v st :
  createGameScene v st =
  set_gs (mkGameScene
            (mkPlayer (Rect.mk (worldWidth v st / 2) (worldHeight v st / 2) 24 24)
                      180 "#22c55e")
            (fresh_coins (worldWidth v st) (worldHeight v st)
                         (rand_seq (rng st)) (rand_pos (rng st)) 10)
            0%Z)
         (set_rng (mkRng (rand_seq (rng st)) (rand_pos (rng st) + 20)) st).
Proof. unfold createGameScene. rewrite spawnCoins_eq. reflexivity. Qed.

Lemma boot_eq v W H seq now :
  boot v W H seq now =
  mkWorld W H (mkInput [] (mkMouse 0 0 false))
          (mkGameScene
             (mkPlayer (Rect.mk (match v with FixedRes => BASE_WIDTH | DynamicRes => W end / 2)
                                (match v with FixedRes => BASE_HEIGHT | DynamicRes => H end / 2)
                                24 24) 180 "#22c55e")
             (fresh_coins (match v with FixedRes => BASE_WIDTH | DynamicRes => W end)
                          (match v with FixedRes => BASE_HEIGHT | DynamicRes => H end)
                          seq 0 10)
             0%Z)
          menu menu (mkTiming now 0 0 0 0) (mkRng seq 20) [Enter menu].
Proof. unfold boot. rewrite createGameScene_eq. destruct v; reflexivity. Qed.

(** ** What no event and no update changes *)

Lemma scene_invariant_setScene v name st :
  scene_invariant st -> scene_invariant (setScene v name st).
Proof.
  intros (He & H0 & Hsum & Hw & Hh & Hs).
  destruct (SceneName_eq_dec name (current st)) as [->|Hne].
  { rewrite setScene_same. repeat split; assumption. }
  assert (Hst : stateEl (setScene v name st) = name)
    by (rewrite setScene_other by assumption; reflexivity).
  unfold scene_invariant. rewrite Hst, setScene_current.
  split; [reflexivity|].
  destruct name, v;
    rewrite ?setScene_fixed_gs, ?(setScene_gs _ menu), ?(setScene_gs _ pause)
      by discriminate;
    try (repeat split; assumption).
  rewrite setScene_game_dynamic_gs by congruence.
  cbn [score coins player move_to box Rect.w Rect.h speed].
  rewrite fresh_coins_length. repeat split; try assumption; lia.
Qed.

Lemma collected_invariant v dt st :
  scene_invariant st -> scene_invariant (collected v dt st).
Proof.
  intros (He & H0 & Hsum & Hw & Hh & Hs).
  unfold scene_invariant, collected.
  cbn [stateEl current gs set_gs score coins player].
  destruct (move_player_size v dt st) as [-> ->].
  assert (Hsp : speed (move_player v dt st) = speed (player (gs st)))
    by (rewrite move_player_eq; reflexivity).
  rewrite Hsp. unfold score_after, coins_after.
  pose proof (filter_length (rectsOverlap (move_player v dt st)) (coins (gs st))) as Hf.
  repeat split; try assumption; lia.
Qed.

Lemma scene_invariant_game_update v dt st :
  scene_invariant st -> scene_invariant (game_update v dt st).
Proof.
  intros Hinv. rewrite game_update_eq. cbn zeta.
  pose proof (collected_invariant v dt st Hinv) as Hc.
  destruct (coins_after v dt st), (has (keys (input st)) "Escape");
    repeat apply scene_invariant_setScene; exact Hc.
Qed.

Lemma scene_invariant_scene_update v name dt st :
  scene_invariant st -> scene_invariant (scene_update v name dt st).
Proof.
  intros Hinv. destruct name; cbn [scene_update].
  - unfold menu_update.
    destruct (has (keys (input st)) "Enter" || down (mouse (input st)));
      [apply scene_invariant_setScene|]; exact Hinv.
  - apply scene_invariant_game_update. exact Hinv.
  - unfold pause_update.
    destruct (has (keys (input st)) "Escape");
      [apply scene_invariant_setScene|]; exact Hinv.
Qed.

(** A property kept by each step, and blind to the clock and the trace, is
    kept by the fixed-step loop and so by a whole frame. *)
Lemma fixed_step_preserves (P : World -> Prop) v :
  (forall e st, P st -> P (log e st)) ->
  (forall t st, P st -> P (set_timing t st)) ->
  (forall dt st, P st -> P (step v dt st)) ->
  forall st, P st -> P (fixed_step v st).
Proof.
  intros Hlog Htim Hupd st HP. unfold fixed_step. cbn zeta.
  apply Htim.
  apply (Hupd (float_to_R (FIXED_DT / 1000))
              (log (Update (current st) (FIXED_DT / 1000)%float) st)).
  apply Hlog, HP.
Qed.

Lemma fixed_steps_preserves (P : World -> Prop) v :
  (forall st, P st -> P (fixed_step v st)) ->
  forall fuel st st', P st -> fixed_steps v fuel st = Some st' -> P st'.
Proof.
  intros Hstep. induction fuel as [|fuel IH]; intros st st' HP Hrun;
    cbn [fixed_steps] in Hrun.
  - destruct (PrimFloat.leb FIXED_DT (accumulator (timing st))); [discriminate|].
    injection Hrun as <-. exact HP.
  - destruct (PrimFloat.leb FIXED_DT (accumulator (timing st))).
    + apply (IH (fixed_step v st)); [apply Hstep; exact HP | exact Hrun].
    + injection Hrun as <-. exact HP.
Qed.

Lemma loop_preserves (P : World -> Prop) v :
  (forall e st, P st -> P (log e st)) ->
  (forall t st, P st -> P (set_timing t st)) ->
  (forall dt st, P st -> P (step v dt st)) ->
  forall fuel now st st', P st -> loop v fuel now st = Some st' -> P st'.
Proof.
  intros Hlog Htim Hupd fuel now st st' HP Hrun. unfold loop in Hrun.
  cbn zeta in Hrun.
  eapply (fixed_steps_preserves P v); [|apply Htim; exact HP|exact Hrun].
  intros s Hs. apply fixed_step_preserves; assumption.
Qed.

(** Every action the platform takes keeps a property that each step keeps
    and that does not read the input, the clock, the window size or the
    trace. *)
Lemma run_preserves (P : World -> Prop) v :
  (forall e st, P st -> P (log e st)) ->
  (forall t st, P st -> P (set_timing t st)) ->
  (forall dt st, P st -> P (step v dt st)) ->
  (forall k st, P st -> P (keydown k st)) ->
  (forall k st, P st -> P (keyup k st)) ->
  (forall m st, P st -> P (set_mouse m st)) ->
  (forall w h st, P st -> P (resize v w h st)) ->
  forall acts st st', P st -> run v acts st = Some st' -> P st'.
Proof.
  intros Hlog Htim Hupd Hkd Hku Hm Hrs.
  induction acts as [|a acts IH]; intros st st' HP Hrun; cbn [run] in Hrun.
  - injection Hrun as <-. exact HP.
  - destruct (act v a st) as [st1|] eqn:Hact; [|discriminate].
    apply (IH st1); [|exact Hrun].
    destruct a; cbn [act] in Hact; try (injection Hact as <-).
    + apply Hkd, HP.
    + apply Hku, HP.
    + apply Hm, HP.
    + apply Hm, HP.
    + destruct v; apply Hm, HP.
    + apply Hrs, HP.
    + eapply (loop_preserves P v); eassumption.
Qed.

Lemma scene_invariant_run v acts st st' :
  scene_invariant st -> run v acts st = Some st' -> scene_invariant st'.
Proof.
  apply (run_preserves scene_invariant v); try (intros; assumption).
  - intros dt s. apply scene_invariant_scene_update.
  - intros w h s Hs. destruct v; exact Hs.
Qed.

Lemma scene_invariant_boot v W H seq now : scene_invariant (boot v W H seq now).
Proof.
  rewrite boot_eq. unfold scene_invariant.
  cbn [stateEl current gs score coins player box Rect.w Rect.h speed].
  rewrite fresh_coins_length. repeat split; lia.
Qed.

(** In every world the program can reach, in either program and whatever the
    window size: the status element shows the current scene; the score is
    ten times the number of coins taken in the round, so it is between 0 and
    100 and a round that ends with no coin left ends at exactly 100; and the
    player is still 24x24 with speed 180. *)
Theorem reachable_score_counts_coins (v : Variant) (st : World) :
  reachable v st ->
  stateEl st = current st /\
  score (gs st) = (10 * (10 - Z.of_nat (List.length (coins (gs st)))))%Z /\
  (List.length (coins (gs st)) <= 10)%nat /\
  (0 <= score (gs st) <= 100)%Z /\
  (coins (gs st) = [] -> score (gs st) = 100%Z) /\
  Rect.w (player (gs st)) = 24 /\ Rect.h (player (gs st)) = 24 /\
  speed (player (gs st)) = 180.
Proof.
  intros (W & H & seq & now & acts & _ & Hrun).
  pose proof (scene_invariant_run v acts _ _ (scene_invariant_boot v W H seq now) Hrun)
    as (He & H0 & Hsum & Hw & Hh & Hs).
  repeat split; try assumption; try lia.
  intros Hnil. rewrite Hnil in Hsum. cbn in Hsum. lia.
Qed.

(** *** The demo round *)

Lemma iter2 {A : Type} (f : A -> A) (x : A) : Nat.iter 2 f x = f (f x).
Proof. reflexivity. Qed.

Lemma fresh_coins_const (W H r : R) (s : nat -> R) :
  (forall i, s i = r) ->
  forall n k,
    fresh_coins W H s k n = repeat (Rect.mk (r * (W - 16)) (r * (H - 16)) 12 12) n.
Proof.
  intros Hs. induction n as [|n IH]; intros k; cbn [fresh_coins repeat].
  - reflexivity.
  - rewrite IH. unfold fresh_coin. rewrite !Hs. reflexivity.
Qed.

Lemma simulate_step_menu v st :
  current st = menu -> has (keys (input st)) "Enter" = true ->
  simulate_step v st =
  setScene v game (log (Update menu (FIXED_DT / 1000)%float) st).
Proof.
  intros Hc Hk. unfold simulate_step, step. cbn [current log]. rewrite Hc.
  cbn [scene_update]. unfold menu_update. cbn [input log]. rewrite Hk.
  reflexivity.
Qed.

Lemma simulate_step_game v st :
  current st = game ->
  simulate_step v st =
  game_update v (float_to_R (FIXED_DT / 1000))
              (log (Update game (FIXED_DT / 1000)%float) st).
Proof.
  intros Hc. unfold simulate_step, step. cbn [current log]. rewrite Hc.
  reflexivity.
Qed.

Lemma enter_only_no_axis : input_ax ["Enter"%string] = 0 /\ input_ay ["Enter"%string] = 0.
Proof. unfold input_ax, input_ay. cbn. lra. Qed.

(** From the menu with Enter held, the player at the centre of the 800x600
    world and ten coins under it: the first fixed step enters the game (and,
    in the dynamic-resolution program, spawns ten coins again at the same
    place), the second collects all ten and goes back to the menu. *)
Lemma demo_round v st :
  current st = menu ->
  keys (input st) = ["Enter"%string] ->
  WIDTH st = 800 -> HEIGHT st = 600 ->
  (forall i, rand_seq (rng st) i = 1 / 2) ->
  Rect.x (player (gs st)) = 400 -> Rect.y (player (gs st)) = 300 ->
  Rect.w (player (gs st)) = 24 -> Rect.h (player (gs st)) = 24 ->
  coins (gs st) = repeat demo_coin 10 ->
  score (gs st) = 0%Z ->
  current (simulate_step v st) = game /\
  current (simulate_step v (simulate_step v st)) = menu /\
  coins (gs (simulate_step v (simulate_step v st))) = [] /\
  score (gs (simulate_step v (simulate_step v st))) = 100%Z.
Proof.
  intros Hcur Hkeys HW HH Hseq Hx Hy Hw Hh Hcoins Hscore.
  assert (Hk : has (keys (input st)) "Enter" = true) by (rewrite Hkeys; reflexivity).
  rewrite (simulate_step_menu v st Hcur Hk).
  set (st0 := log (Update menu (FIXED_DT / 1000)%float) st).
  set (st1 := setScene v game st0).
  assert (Hc1 : current st1 = game) by apply setScene_current.
  destruct (setScene_frame v game st0) as (HW1 & HH1 & Hi1 & _). fold st1 in HW1, HH1, Hi1.
  assert (Hg1 : Rect.x (player (gs st1)) = 400 /\ Rect.y (player (gs st1)) = 300 /\
                Rect.w (player (gs st1)) = 24 /\ Rect.h (player (gs st1)) = 24 /\
                coins (gs st1) = repeat demo_coin 10 /\ score (gs st1) = 0%Z).
  { unfold st1. destruct v.
    - rewrite setScene_fixed_gs. unfold st0. cbn [gs log]. tauto.
    - rewrite setScene_game_dynamic_gs by (unfold st0; cbn [current log]; rewrite Hcur; discriminate).
      unfold st0.
      cbn [player coins score move_to box Rect.x Rect.y Rect.w Rect.h gs log
           WIDTH HEIGHT rng].
      rewrite HW, HH, (fresh_coins_const 800 600 (1 / 2) _ Hseq).
      repeat split; try assumption; lra. }
  destruct Hg1 as (Hx1 & Hy1 & Hw1 & Hh1 & Hcoins1 & Hscore1).
  split; [exact Hc1|].
  rewrite (simulate_step_game v st1 Hc1).
  set (dt := float_to_R (FIXED_DT / 1000)).
  set (st2 := log (Update game (FIXED_DT / 1000)%float) st1).
  assert (Hkeys2 : keys (input st2) = ["Enter"%string])
    by (unfold st2; cbn [input log]; rewrite Hi1; unfold st0; cbn [input log]; exact Hkeys).
  destruct enter_only_no_axis as [Hax Hay]. rewrite <- Hkeys2 in Hax, Hay.
  assert (Hin : within_world v st2 (player (gs st2))).
  { unfold within_world, st2. cbn [gs log].
    rewrite Hx1, Hy1, Hw1, Hh1.
    destruct v; unfold worldWidth, worldHeight, BASE_WIDTH, BASE_HEIGHT;
      cbn [WIDTH HEIGHT log]; rewrite ?HW1, ?HH1; unfold st0; cbn [WIDTH HEIGHT log];
      rewrite ?HW, ?HH; lra. }
  pose proof (move_player_idle_inside v dt st2 Hax Hay Hin) as Hm.
  assert (Hov : rectsOverlap (move_player v dt st2) demo_coin = true).
  { apply rectsOverlap_true_iff. rewrite Hm. unfold st2. cbn [gs log].
    rewrite Hx1, Hy1, Hw1, Hh1. unfold demo_coin. cbn [Rect.x Rect.y Rect.w Rect.h]. lra. }
  assert (Hca : coins_after v dt st2 = []).
  { unfold coins_after. unfold st2 at 2. cbn [gs log]. rewrite Hcoins1.
    cbn [repeat filter]. rewrite Hov. reflexivity. }
  assert (Hsa : score_after v dt st2 = 100%Z).
  { unfold score_after. unfold st2 at 1 3. cbn [gs log]. rewrite Hcoins1, Hscore1.
    cbn [repeat filter]. rewrite Hov. reflexivity. }
  rewrite game_update_gs. cbn [coins score]. rewrite Hca, Hsa.
  split; [|split; reflexivity].
  rewrite game_update_eq. cbn zeta. rewrite Hca. apply setScene_current.
Qed.

Lemma demo_start_ready v :
  let st := keydown "Enter" (demo_start v) in
  current st = menu /\
  keys (input st) = ["Enter"%string] /\
  WIDTH st = 800 /\ HEIGHT st = 600 /\
  (forall i, rand_seq (rng st) i = 1 / 2) /\
  Rect.x (player (gs st)) = 400 /\ Rect.y (player (gs st)) = 300 /\
  Rect.w (player (gs st)) = 24 /\ Rect.h (player (gs st)) = 24 /\
  coins (gs st) = repeat demo_coin 10 /\
  score (gs st) = 0%Z.
Proof.
  cbn zeta. unfold demo_start. rewrite boot_eq.
  cbn [keydown current input keys WIDTH HEIGHT rng rand_seq gs player coins score
       box Rect.x Rect.y Rect.w Rect.h].
  split; [reflexivity|]. split; [reflexivity|]. split; [reflexivity|].
  split; [reflexivity|]. split; [reflexivity|].
  split; [destruct v; unfold BASE_WIDTH; lra|].
  split; [destruct v; unfold BASE_HEIGHT; lra|].
  split; [reflexivity|]. split; [reflexivity|]. split; [|reflexivity].
  rewrite (fresh_coins_const _ _ (1 / 2)) by reflexivity.
  destruct v; reflexivity.
Qed.

(** The frame of the demo round runs two fixed steps. *)
Lemma demo_run v : run v demo_actions (demo_start v) = Some (demo_end v).
Proof.
  unfold demo_actions, demo_end. cbn [run act].
  rewrite loop_drain.
  assert (Ht : timing (keydown "Enter" (demo_start v)) = mkTiming 0 0 0 0 0)
    by (unfold demo_start; rewrite boot_eq; reflexivity).
  rewrite Ht.
  replace (frame_clock 40 (mkTiming 0 0 0 0 0)) with (mkTiming 40 40 1 40 0)
    by (vm_compute; reflexivity).
  cbn [accumulator].
  replace (drain 5 40) with (Some (2%nat, 0x1.aaaaaaaaaaaa8p+2%float))
    by (vm_compute; reflexivity).
  reflexivity.
Qed.

Lemma demo_end_reachable v : reachable v (demo_end v).
Proof.
  exists 800, 600, (fun _ => 1 / 2), 0%float, demo_actions.
  split; [intro i; lra | apply demo_run].
Qed.

(** The demo round ends in the menu with no coin left and a score of 100. *)
Lemma demo_end_facts v :
  current (demo_end v) = menu /\ coins (gs (demo_end v)) = [] /\
  score (gs (demo_end v)) = 100%Z.
Proof.
  unfold demo_end.
  destruct (set_timing_frame (mkTiming 40 0x1.aaaaaaaaaaaa8p+2 1 40 0)
              (Nat.iter 2 (simulate_step v) (keydown "Enter" (demo_start v))))
    as (-> & -> & _).
  rewrite iter2.
  pose proof (demo_start_ready v) as H. cbn zeta in H.
  destruct H as (H1 & H2 & H3 & H4 & H5 & H6 & H7 & H8 & H9 & H10 & H11).
  destruct (demo_round v _ H1 H2 H3 H4 H5 H6 H7 H8 H9 H10 H11) as (_ & Hc & Hco & Hs).
  split; [exact Hc|]. split; [exact Hco | exact Hs].
Qed.

(** At the end of the demo round, played through the frame loop: the
    invariant, and with no coin left the score of exactly 100. *)
Lemma reachable_score_counts_coins_witness :
  stateEl (demo_end DynamicRes) = current (demo_end DynamicRes) /\
  score (gs (demo_end DynamicRes)) =
  (10 * (10 - Z.of_nat (List.length (coins (gs (demo_end DynamicRes))))))%Z /\
  score (gs (demo_end DynamicRes)) = 100%Z.
Proof.
  destruct (reachable_score_counts_coins DynamicRes (demo_end DynamicRes)
              (demo_end_reachable DynamicRes)) as (H1 & H2 & _ & _ & H5 & _).
  split; [exact H1|]. split; [exact H2|].
  apply H5. apply (demo_end_facts DynamicRes).
Defined.

(** ** The fixed-resolution program: nothing leaves the world, no coin returns *)






(** What the coins and the score of [st'] are to those of [st] when no
    round was started in between. *)
Lemma fixed_coins_shrink_scene_update st0 name dt st :
  incl (coins (gs st)) (coins (gs st0)) /\
  (List.length (coins (gs st)) <= List.length (coins (gs st0)))%nat /\
  score (gs st) =
    (score (gs st0) +
     10 * Z.of_nat (List.length (coins (gs st0)) - List.length (coins (gs st))))%Z ->
  let st' := scene_update FixedRes name dt st in
  incl (coins (gs st')) (coins (gs st0)) /\
  (List.length (coins (gs st')) <= List.length (coins (gs st0)))%nat /\
  score (gs st') =
    (score (gs st0) +
     10 * Z.of_nat (List.length (coins (gs st0)) - List.length (coins (gs st'))))%Z.
Proof.
  intros (Hin & Hlen & Hsc). cbn zeta.
  destruct name; cbn [scene_update].
  - unfold menu_update.
    destruct (has (keys (input st)) "Enter" || down (mouse (input st)));
      rewrite ?setScene_fixed_gs; tauto.
  - rewrite game_update_gs. cbn [coins score]. unfold coins_after, score_after.
    pose proof (filter_length (rectsOverlap (move_player FixedRes dt st))
                              (coins (gs st))) as Hf.
    split; [|split; [lia|lia]].
    intros c Hc. apply Hin. apply filter_In in Hc. tauto.
  - unfold pause_update.
    destruct (has (keys (input st)) "Escape");
      rewrite ?setScene_fixed_gs; tauto.
Qed.

(** In the fixed-resolution program no action ever adds a coin: after any
    actions the coins are among those there before, the score has grown by
    10 for each coin gone, and so, once no coin is left, none ever is again,
    the score stays, and every update of the game scene leaves for menu at
    once: a finished game cannot be played again. *)
Theorem fixed_coins_never_return (acts : list Action) (st st' : World) :
  run FixedRes acts st = Some st' ->
  incl (coins (gs st')) (coins (gs st)) /\
  (List.length (coins (gs st')) <= List.length (coins (gs st)))%nat /\
  score (gs st') =
    (score (gs st) +
     10 * Z.of_nat (List.length (coins (gs st)) - List.length (coins (gs st'))))%Z /\
  (coins (gs st) = [] ->
   coins (gs st') = [] /\ score (gs st') = score (gs st) /\
   forall dt, current (game_update FixedRes dt st') = menu).
Proof.
  intros Hrun.
  assert (Hrel : incl (coins (gs st')) (coins (gs st)) /\
                 (List.length (coins (gs st')) <= List.length (coins (gs st)))%nat /\
                 score (gs st') =
                   (score (gs st) +
                    10 * Z.of_nat (List.length (coins (gs st)) -
                                   List.length (coins (gs st'))))%Z).
  { revert Hrun.
    apply (run_preserves
             (fun s => incl (coins (gs s)) (coins (gs st)) /\
                       (List.length (coins (gs s)) <= List.length (coins (gs st)))%nat /\
                       score (gs s) =
                         (score (gs st) +
                          10 * Z.of_nat (List.length (coins (gs st)) -
                                         List.length (coins (gs s))))%Z) FixedRes);
      try (intros; assumption).
    - intros dt s Hs. apply (fixed_coins_shrink_scene_update st (current s) dt s Hs).
    - split; [apply incl_refl|]. split; [lia|]. rewrite Nat.sub_diag. cbn. lia. }
  destruct Hrel as (Hin & Hlen & Hsc).
  split; [exact Hin|]. split; [exact Hlen|]. split; [exact Hsc|].
  intros Hnil. rewrite Hnil in *. cbn [List.length] in *.
  assert (Hnil' : coins (gs st') = []) by (destruct (coins (gs st')); [reflexivity|cbn in Hlen; lia]).
  split; [exact Hnil'|]. split; [rewrite Hsc, Hnil'; cbn; lia|].
  intros dt. rewrite game_update_eq. cbn zeta.
  unfold coins_after. rewrite Hnil'. cbn [filter]. apply setScene_current.
Qed.

(** The frame after the demo round: two more fixed steps, from the menu
    into the game and straight back. *)
Lemma demo_replay_run :
  run FixedRes [Frame 5 80] (demo_end FixedRes) = Some demo_replay.
Proof.
  unfold demo_replay. cbn [run act]. rewrite loop_drain.
  assert (Ht : timing (demo_end FixedRes) = mkTiming 40 0x1.aaaaaaaaaaaa8p+2 1 40 0)
    by (unfold demo_end; apply set_timing_frame).
  rewrite Ht.
  replace (frame_clock 80 (mkTiming 40 0x1.aaaaaaaaaaaa8p+2 1 40 0))
    with (mkTiming 80 0x1.7555555555555p+5 2 80 0)
    by (vm_compute; reflexivity).
  cbn [accumulator].
  replace (drain 5 0x1.7555555555555p+5)
    with (Some (2%nat, 0x1.aaaaaaaaaaaa8p+3%float))
    by (vm_compute; reflexivity).
  reflexivity.
Qed.

(** The demo round of the fixed-resolution program takes the ten coins for
    100 points; in the frame after it, with Enter still held, the game is
    entered again and no coin comes back. *)
Lemma fixed_coins_never_return_witness :
  score (gs (demo_end FixedRes)) =
    (score (gs (demo_start FixedRes)) +
     10 * Z.of_nat (List.length (coins (gs (demo_start FixedRes))) -
                    List.length (coins (gs (demo_end FixedRes)))))%Z /\
  coins (gs demo_replay) = [] /\
  score (gs demo_replay) = score (gs (demo_end FixedRes)).
Proof.
  destruct (fixed_coins_never_return demo_actions (demo_start FixedRes)
              (demo_end FixedRes) (demo_run FixedRes)) as (_ & _ & Hscore & _).
  destruct (fixed_coins_never_return [Frame 5 80] (demo_end FixedRes) demo_replay
              demo_replay_run) as (_ & _ & _ & Hdone).
  destruct (Hdone (proj1 (proj2 (demo_end_facts FixedRes)))) as (Hnil & Hsame & _).
  split; [exact Hscore|]. split; [exact Hnil | exact Hsame].
Defined.

(** ** Scenes that wait *)

(** While the pause scene is current and Escape is not held, or the menu is
    current and neither Enter nor the mouse button is held, a frame changes
    nothing but the clock and the record of the updates it ran: the game
    behind the pause overlay is frozen, whatever time passes. *)
Theorem waiting_scene_frame_is_frozen
  (v : Variant) (fuel : nat) (now : float) (st st' : World) :
  (current st = pause /\ has (keys (input st)) "Escape" = false) \/
  (current st = menu /\ has (keys (input st)) "Enter" = false /\
   down (mouse (input st)) = false) ->
  loop v fuel now st = Some st' ->
  gs st' = gs st /\ current st' = current st /\ stateEl st' = stateEl st /\
  rng st' = rng st /\ input st' = input st /\
  WIDTH st' = WIDTH st /\ HEIGHT st' = HEIGHT st.
Proof.
  intros Hwait Hrun.
  revert Hrun.
  apply (loop_preserves
           (fun s => gs s = gs st /\ current s = current st /\
                     stateEl s = stateEl st /\ rng s = rng st /\
                     input s = input st /\ WIDTH s = WIDTH st /\
                     HEIGHT s = HEIGHT st) v);
    try (intros; assumption); [|tauto].
  intros dt s (Hg & Hc & He & Hr & Hi & HW & HH).
  assert (Hs : step v dt s = s).
  { unfold step. rewrite Hc.
    destruct Hwait as [(Hp & Hesc) | (Hm & Hent & Hdn)].
    - rewrite Hp. cbn [scene_update]. unfold pause_update. rewrite Hi, Hesc.
      reflexivity.
    - rewrite Hm. cbn [scene_update]. unfold menu_update. rewrite Hi, Hent, Hdn.
      reflexivity. }
  rewrite Hs. tauto.
Qed.

(** ** The scene machine, one step at a time *)

(** The scene after one step, for each scene before it: menu goes to game
    exactly when Enter or the mouse button is held; pause goes to game
    exactly when Escape is held; game goes to menu exactly when the update
    leaves no coin, and otherwise to pause exactly when Escape is held.  So
    no step leads from menu to pause or from pause to menu. *)
Theorem scene_machine_step (v : Variant) (dt : R) (st : World) :
  (current st = menu ->
   current (step v dt st) =
   if has (keys (input st)) "Enter" || down (mouse (input st)) then game else menu) /\
  (current st = pause ->
   current (step v dt st) =
   if has (keys (input st)) "Escape" then game else pause) /\
  (current st = game ->
   current (step v dt st) =
   match coins (gs (step v dt st)) with
   | [] => menu
   | _ :: _ => if has (keys (input st)) "Escape" then pause else game
   end).
Proof.
  unfold step. split; [|split]; intros Hc; rewrite Hc; cbn [scene_update].
  - unfold menu_update.
    destruct (has (keys (input st)) "Enter" || down (mouse (input st)));
      [apply setScene_current | exact Hc].
  - unfold pause_update.
    destruct (has (keys (input st)) "Escape"); [apply setScene_current | exact Hc].
  - rewrite game_update_coins, game_update_eq. cbn zeta.
    destruct (coins_after v dt st); [apply setScene_current|].
    destruct (has (keys (input st)) "Escape"); [apply setScene_current|].
    unfold collected. cbn. exact Hc.
Qed.

(** A frame 40 ms after the last one on the paused game: two updates of
    the pause scene. *)
Lemma paused_frame_run v : loop v 5 40 paused_world = Some (paused_frame v).
Proof.
  unfold paused_frame. rewrite loop_drain.
  unfold paused_world at 1 2. rewrite timing_world_of.
  replace (frame_clock 40 (mkTiming 0 0 0 0 0)) with (mkTiming 40 40 1 40 0)
    by (vm_compute; reflexivity).
  cbn [accumulator].
  replace (drain 5 40) with (Some (2%nat, 0x1.aaaaaaaaaaaa8p+2%float))
    by (vm_compute; reflexivity).
  reflexivity.
Qed.

Lemma paused_frame_dts v :
  update_dts (trace (paused_frame v)) =
  [(FIXED_DT / 1000)%float; (FIXED_DT / 1000)%float].
Proof.
  unfold paused_frame.
  destruct (set_timing_frame (mkTiming 40 0x1.aaaaaaaaaaaa8p+2 1 40 0)
              (Nat.iter 2 (simulate_step v) paused_world))
    as (_ & _ & _ & -> & _).
  rewrite simulate_steps_dts. reflexivity.
Qed.

(** The paused game through a frame that runs two updates: score 10 and
    one coin, as before. *)
Lemma waiting_scene_frame_is_frozen_witness :
  loop DynamicRes 5 40 paused_world = Some (paused_frame DynamicRes) /\
  update_dts (trace (paused_frame DynamicRes)) =
    [(FIXED_DT / 1000)%float; (FIXED_DT / 1000)%float] /\
  gs (paused_frame DynamicRes) = gs paused_world /\
  current (paused_frame DynamicRes) = current paused_world.
Proof.
  assert (Hwait : (current paused_world = pause /\
                   has (keys (input paused_world)) "Escape" = false) \/
                  (current paused_world = menu /\
                   has (keys (input paused_world)) "Enter" = false /\
                   down (mouse (input paused_world)) = false))
    by (left; split; reflexivity).
  destruct (waiting_scene_frame_is_frozen DynamicRes 5 40 paused_world
              (paused_frame DynamicRes) Hwait (paused_frame_run DynamicRes))
    as (Hg & Hc & _).
  split; [apply paused_frame_run|]. split; [apply paused_frame_dts|].
  split; [exact Hg | exact Hc].
Defined.

(** ** How far one update moves the player *)

(** One update moves a player that is inside the world by at most
    [speed * dt], measured along the straight line and so on each axis too:
    a diagonal is no faster than an axis, and the clamp never pushes the
    player further than the keys would. *)
Theorem update_moves_at_most_speed_dt (v : Variant) (dt : R) (st : World) :
  0 <= speed (player (gs st)) ->
  0 <= dt ->
  within_world v st (player (gs st)) ->
  let p : Rect.t := player (gs st) in
  let p' : Rect.t := player (gs (game_update v dt st)) in
  hypot (Rect.x p' - Rect.x p) (Rect.y p' - Rect.y p) <= speed (player (gs st)) * dt /\
  Rabs (Rect.x p' - Rect.x p) <= speed (player (gs st)) * dt /\
  Rabs (Rect.y p' - Rect.y p) <= speed (player (gs st)) * dt.
Proof.
  intros Hs Hdt [Hinx Hiny]. cbn zeta.
  assert (Hsd : 0 <= speed (player (gs st)) * dt) by nra.
  rewrite game_update_player, move_player_eq. cbn zeta.
  cbn [move_to box Rect.x Rect.y].
  set (d := displacement (keys (input st)) (speed (player (gs st))) dt).
  pose proof (displacement_length_le (keys (input st)) _ dt Hsd) as Hlen.
  fold d in Hlen.
  pose proof (clamp_nonexpansive _ _ (fst d) Hinx) as Hcx.
  pose proof (clamp_nonexpansive _ _ (snd d) Hiny) as Hcy.
  assert (Hh : hypot (Rmax 0 (Rmin (worldWidth v st - Rect.w (player (gs st)))
                                   (Rect.x (player (gs st)) + fst d))
                      - Rect.x (player (gs st)))
                     (Rmax 0 (Rmin (worldHeight v st - Rect.h (player (gs st)))
                                   (Rect.y (player (gs st)) + snd d))
                      - Rect.y (player (gs st)))
               <= hypot (fst d) (snd d))
    by (apply hypot_le; assumption).
  assert (Hax : Rabs (fst d) <= hypot (fst d) (snd d)).
  { pose proof (hypot_le (fst d) 0 (fst d) (snd d) (Rle_refl _)) as H.
    rewrite Rabs_R0 in H. specialize (H (Rabs_pos _)).
    unfold hypot in H at 1.
    replace (fst d * fst d + 0 * 0) with (Rsqr (fst d)) in H by (unfold Rsqr; ring).
    rewrite sqrt_Rsqr_abs in H. exact H. }
  assert (Hay : Rabs (snd d) <= hypot (fst d) (snd d)).
  { pose proof (hypot_le 0 (snd d) (fst d) (snd d)) as H.
    rewrite Rabs_R0 in H. specialize (H (Rabs_pos _) (Rle_refl _)).
    unfold hypot in H at 1.
    replace (0 * 0 + snd d * snd d) with (Rsqr (snd d)) in H by (unfold Rsqr; ring).
    rewrite sqrt_Rsqr_abs in H. exact H. }
  repeat split; lra.
Qed.

Lemma update_moves_at_most_speed_dt_witness :
  Rabs (Rect.x (player (gs (game_update DynamicRes (1 / 60) diagonal_world)))
        - Rect.x (player (gs diagonal_world))) <= 180 * (1 / 60).
Proof.
  assert (Hs : 0 <= speed (player (gs diagonal_world))) by (cbn; lra).
  assert (Hdt : 0 <= 1 / 60) by lra.
  assert (Hin : within_world DynamicRes diagonal_world (player (gs diagonal_world)))
    by (unfold within_world; cbn; lra).
  exact (proj1 (proj2 (update_moves_at_most_speed_dt DynamicRes (1 / 60)
                         diagonal_world Hs Hdt Hin))).
Defined.

(** With one axis at rest the divisor is 1: the step is exactly
    [speed * dt] along the other axis, in the direction of the key, and
    nothing across; and keys of opposite directions held together cancel. *)
Theorem axial_input_moves_along_one_axis (ks : list string) (spd dt : R) :
  (input_ay ks = 0 -> displacement ks spd dt = (input_ax ks * spd * dt, 0)) /\
  (input_ax ks = 0 -> displacement ks spd dt = (0, input_ay ks * spd * dt)) /\
  (has ks "ArrowRight" || has ks "d" = has ks "ArrowLeft" || has ks "a" ->
   input_ax ks = 0) /\
  (has ks "ArrowDown" || has ks "s" = has ks "ArrowUp" || has ks "w" ->
   input_ay ks = 0).
Proof.
  assert (Hlen1 : forall a b : R,
             (a = -1 \/ a = 0 \/ a = 1) -> b = 0 -> or_else (hypot a b) 1 = 1).
  { intros a b Ha ->. unfold hypot.
    destruct Ha as [ -> | [ -> | -> ] ].
    - replace (-1 * -1 + 0 * 0) with 1 by lra. rewrite sqrt_1.
      apply or_else_nonzero. lra.
    - replace (0 * 0 + 0 * 0) with 0 by lra. rewrite sqrt_0. apply or_else_zero.
    - replace (1 * 1 + 0 * 0) with 1 by lra. rewrite sqrt_1.
      apply or_else_nonzero. lra. }
  split; [|split; [|split]].
  - intros Hy. unfold displacement, input_len.
    rewrite (Hlen1 _ _ (input_ax_cases ks) Hy), Hy. f_equal; lra.
  - intros Hx. unfold displacement, input_len.
    assert (E : hypot (input_ax ks) (input_ay ks) = hypot (input_ay ks) (input_ax ks))
      by (unfold hypot; f_equal; lra).
    rewrite E, (Hlen1 _ _ (input_ay_cases ks) Hx), Hx. f_equal; lra.
  - intros E. unfold input_ax. rewrite E. lra.
  - intros E. unfold input_ay. rewrite E. lra.
Qed.

(** ** The frame: bookkeeping *)

(** The loop writes the accumulator only. *)
Lemma fixed_steps_clock v fuel st st' :
  fixed_steps v fuel st = Some st' ->
  last (timing st') = last (timing st) /\
  frames (timing st') = frames (timing st) /\
  fpsTimer (timing st') = fpsTimer (timing st) /\
  fpsEl (timing st') = fpsEl (timing st).
Proof.
  apply (fixed_steps_preserves
           (fun s => last (timing s) = last (timing st) /\
                     frames (timing s) = frames (timing st) /\
                     fpsTimer (timing s) = fpsTimer (timing st) /\
                     fpsEl (timing s) = fpsEl (timing st)) v); [|tauto].
  intros s Hs. rewrite fixed_step_timing. exact Hs.
Qed.

(** Two doubles that are not NaN compare one way or the other. *)
Lemma not_below_is_above (x y : float) :
  PrimFloat.leb x x = true -> PrimFloat.leb y y = true ->
  PrimFloat.leb y x = false -> PrimFloat.ltb x y = true.
Proof.
  rewrite !leb_spec, ltb_spec. unfold SFleb, SFltb.
  destruct (Prim2SF x) as [sx|sx| |sx mx ex], (Prim2SF y) as [sy|sy| |sy my ey];
    cbn [SFcompare]; try discriminate; try (intros _ _; destruct sx; discriminate || reflexivity);
    try (intros _ _; destruct sy; discriminate || reflexivity);
    try (intros _ _; destruct sx, sy; discriminate || reflexivity).
  intros _ _. destruct sx, sy; try discriminate; try reflexivity.
  - rewrite (Z.compare_antisym ex ey).
    destruct (ex ?= ey)%Z; cbn [CompOpp]; try discriminate; try reflexivity.
    change (Pos.compare_cont Eq my mx) with (Pos.compare my mx).
    change (Pos.compare_cont Eq mx my) with (Pos.compare mx my).
    rewrite (Pos.compare_antisym mx my).
    destruct (mx ?= my)%positive; cbn [CompOpp]; discriminate || reflexivity.
  - rewrite (Z.compare_antisym ex ey).
    destruct (ex ?= ey)%Z; cbn [CompOpp]; try discriminate; try reflexivity.
    change (Pos.compare_cont Eq my mx) with (Pos.compare my mx).
    change (Pos.compare_cont Eq mx my) with (Pos.compare mx my).
    rewrite (Pos.compare_antisym mx my).
    destruct (mx ?= my)%positive; cbn [CompOpp]; discriminate || reflexivity.
Qed.

(** A frame that returns has set [last] to its timestamp and has counted
    itself: when the frame timer, with this frame's time added, has reached
    1000 ms the count of frames since the last reset, this one included, is
    written to the FPS element and both the count and the timer start again
    from 0 (the time beyond 1000 ms is not carried over); otherwise the count
    grows by one and the timer by the frame's time.  After every frame the
    timer fails the test [>= 1000], and unless it is NaN it is below 1000.
    All sums, differences and comparisons are those of binary64. *)
Theorem frame_counts_itself
  (v : Variant) (fuel : nat) (now : float) (st st' : World) :
  loop v fuel now st = Some st' ->
  let delta := (now - last (timing st))%float in
  last (timing st') = now /\
  PrimFloat.leb 1000 (fpsTimer (timing st')) = false /\
  (PrimFloat.leb (fpsTimer (timing st')) (fpsTimer (timing st')) = true ->
   PrimFloat.ltb (fpsTimer (timing st')) 1000 = true) /\
  (PrimFloat.leb 1000 (fpsTimer (timing st) + delta) = true ->
   fpsEl (timing st') = (frames (timing st) + 1)%Z /\
   frames (timing st') = 0%Z /\ fpsTimer (timing st') = 0%float) /\
  (PrimFloat.leb 1000 (fpsTimer (timing st) + delta) = false ->
   fpsEl (timing st') = fpsEl (timing st) /\
   frames (timing st') = (frames (timing st) + 1)%Z /\
   fpsTimer (timing st') = (fpsTimer (timing st) + delta)%float).
Proof.
  intros Hrun. cbn zeta. unfold loop in Hrun. cbn zeta in Hrun.
  apply fixed_steps_clock in Hrun. destruct Hrun as (Hl & Hf & Ht & He).
  rewrite Hl, Hf, Ht, He. cbn [timing set_timing].
  assert (Hbelow : forall x : float,
             PrimFloat.leb 1000 x = false -> PrimFloat.leb x x = true ->
             PrimFloat.ltb x 1000 = true).
  { intros x H1 H2. apply not_below_is_above; [exact H2 | reflexivity | exact H1]. }
  destruct (PrimFloat.leb 1000 (fpsTimer (timing st) + (now - last (timing st))))
    eqn:Hge; cbn [last frames fpsTimer fpsEl].
  - split; [reflexivity|]. split; [reflexivity|]. split; [intros _; reflexivity|].
    split; [intros _; repeat split; reflexivity | discriminate].
  - split; [reflexivity|]. split; [exact Hge|]. split; [apply Hbelow; exact Hge|].
    split; [discriminate | intros _; repeat split; reflexivity].
Qed.

(** The frame at 40 ms on the paused game. *)
Lemma frame_counts_itself_witness :
  last (timing (paused_frame DynamicRes)) = 40%float /\
  PrimFloat.ltb (fpsTimer (timing (paused_frame DynamicRes))) 1000 = true /\
  frames (timing (paused_frame DynamicRes)) = 1%Z.
Proof.
  destruct (frame_counts_itself DynamicRes 5 40 paused_world (paused_frame DynamicRes)
              (paused_frame_run DynamicRes)) as (Hl & _ & Hlt & _ & Hno).
  split; [exact Hl|]. split.
  - apply Hlt. unfold paused_frame.
    destruct (set_timing_frame (mkTiming 40 0x1.aaaaaaaaaaaa8p+2 1 40 0)
                (Nat.iter 2 (simulate_step DynamicRes) paused_world))
      as (_ & _ & _ & _ & _ & _ & _ & _ & ->).
    reflexivity.
  - assert (Hsmall : PrimFloat.leb 1000
                       (fpsTimer (timing paused_world)
                        + (40 - last (timing paused_world))) = false).
    { unfold paused_world. rewrite timing_world_of. reflexivity. }
    destruct (Hno Hsmall) as (_ & Hfr & _).
    rewrite Hfr. unfold paused_world. rewrite timing_world_of. reflexivity.
Defined.

(** ** The scaled canvas and the mouse *)

(** The scale the fixed-resolution loop computes makes the 800x600 world fit
    the canvas: scaled, it is no wider and no higher than the canvas and
    fills it in one of the two directions; the scale is positive for a canvas
    of positive size. *)
Theorem fit_scale_letterbox (cw ch : R) :
  let s := fit_scale cw ch in
  BASE_WIDTH * s <= cw /\ BASE_HEIGHT * s <= ch /\
  (BASE_WIDTH * s = cw \/ BASE_HEIGHT * s = ch) /\
  (0 < cw -> 0 < ch -> 0 < s).
Proof.
  cbn zeta. unfold fit_scale, BASE_WIDTH, BASE_HEIGHT, Rmin.
  destruct (Rle_dec (cw / 800) (ch / 600)) as [Hle|Hgt].
  - repeat split; lra.
  - repeat split; lra.
Qed.

(** [mousemove] stores the pointer in game coordinates: in the
    dynamic-resolution program the offset from the canvas corner, in the
    fixed-resolution program that offset divided by the scale, so that with a
    positive scale a pointer over the scaled world lands in the 800x600
    world.  The button and everything else are left alone. *)
Theorem mousemove_maps_to_game_space
  (v : Variant) (s cx cy l t : R) (st : World) :
  0 < s ->
  let st' := mousemove v s cx cy l t st in
  let m := mouse (input st') in
  (v = DynamicRes -> mouse_x m = cx - l /\ mouse_y m = cy - t) /\
  (v = FixedRes ->
   mouse_x m * s = cx - l /\ mouse_y m * s = cy - t /\
   (0 <= cx - l <= BASE_WIDTH * s -> 0 <= mouse_x m <= BASE_WIDTH) /\
   (0 <= cy - t <= BASE_HEIGHT * s -> 0 <= mouse_y m <= BASE_HEIGHT)) /\
  down m = down (mouse (input st)) /\ keys (input st') = keys (input st) /\
  gs st' = gs st /\ current st' = current st.
Proof.
  intros Hs. cbn zeta. split; [|split].
  - intros ->. cbn. tauto.
  - intros ->. cbn [mousemove set_mouse input mouse mouse_x mouse_y].
    assert (Hx : (cx - l) / s * s = cx - l) by (field; lra).
    assert (Hy : (cy - t) / s * s = cy - t) by (field; lra).
    split; [exact Hx|]. split; [exact Hy|].
    unfold BASE_WIDTH, BASE_HEIGHT. split; intros [H0 H1].
    + split.
      * apply Rle_mult_inv_pos; lra.
      * apply (Rmult_le_reg_r s); [lra|]. rewrite Hx. lra.
    + split.
      * apply Rle_mult_inv_pos; lra.
      * apply (Rmult_le_reg_r s); [lra|]. rewrite Hy. lra.
  - destruct v; cbn; tauto.
Qed.

Lemma mousemove_maps_to_game_space_witness :
  mouse_x (mouse (input (mousemove FixedRes 2 110 50 10 10 (booted_world FixedRes)))) * 2
  = 110 - 10.
Proof.
  assert (Hs : 0 < 2) by lra.
  destruct (mousemove_maps_to_game_space FixedRes 2 110 50 10 10
              (booted_world FixedRes) Hs) as (_ & Hf & _).
  exact (proj1 (Hf eq_refl)).
Defined.

(** ** Starting a round from the menu *)

(** From the menu, with Enter or the mouse button held, the next step
    leaves menu and enters game.  In the dynamic-resolution program that is a
    new round whatever the scene held before: the player at the centre, ten
    fresh coins, score 0.  In the fixed-resolution program the scene is
    entered as it was left. *)
Theorem menu_confirm_starts_game (v : Variant) (dt : R) (st : World) :
  current st = menu ->
  has (keys (input st)) "Enter" || down (mouse (input st)) = true ->
  let st' := step v dt st in
  current st' = game /\
  trace st' = trace st ++ [Exit menu; Enter game] /\
  (v = FixedRes -> gs st' = gs st) /\
  (v = DynamicRes ->
   score (gs st') = 0%Z /\
   coins (gs st') = fresh_coins (WIDTH st) (HEIGHT st)
                                (rand_seq (rng st)) (rand_pos (rng st)) 10 /\
   Rect.x (player (gs st')) = WIDTH st / 2 /\
   Rect.y (player (gs st')) = HEIGHT st / 2).
Proof.
  intros Hc Hk. cbn zeta. unfold step. rewrite Hc. cbn [scene_update].
  unfold menu_update. rewrite Hk.
  split; [apply setScene_current|].
  split; [rewrite setScene_trace by (rewrite Hc; discriminate); rewrite Hc; reflexivity|].
  split.
  - intros ->. apply setScene_fixed_gs.
  - intros ->. rewrite setScene_game_dynamic_gs by (rewrite Hc; discriminate).
    cbn. tauto.
Qed.

Lemma menu_confirm_starts_game_witness :
  current (step DynamicRes (1 / 60) (booted_enter_world DynamicRes)) = game.
Proof.
  assert (Hc : current (booted_enter_world DynamicRes) = menu).
  { unfold booted_enter_world, booted_world. rewrite boot_eq. reflexivity. }
  assert (Hk : has (keys (input (booted_enter_world DynamicRes))) "Enter"
               || down (mouse (input (booted_enter_world DynamicRes))) = true).
  { unfold booted_enter_world, booted_world. rewrite boot_eq. reflexivity. }
  exact (proj1 (menu_confirm_starts_game DynamicRes (1 / 60)
                  (booted_enter_world DynamicRes) Hc Hk)).
Defined.

(** ** Start-up *)

(** As the program starts, the menu is current and shown in the status
    element, no key or button is held, the accumulator is empty and [last] is
    the start time; the game scene waits with the player, 24x24, at the
    centre of the world, ten coins made of the first twenty random numbers
    and score 0.  With random numbers in [0, 1), and a window of at least
    16x16 in the dynamic-resolution program, every coin is inside the world. *)
Theorem boot_state (v : Variant) (W H : R) (seq : nat -> R) (now : float) :
  let st := boot v W H seq now in
  current st = menu /\ stateEl st = menu /\ trace st = [Enter menu] /\
  keys (input st) = [] /\ down (mouse (input st)) = false /\
  accumulator (timing st) = 0%float /\ last (timing st) = now /\
  rand_pos (rng st) = 20%nat /\
  score (gs st) = 0%Z /\
  coins (gs st) = fresh_coins (worldWidth v st) (worldHeight v st) seq 0 10 /\
  box (player (gs st)) =
    Rect.mk (worldWidth v st / 2) (worldHeight v st / 2) 24 24 /\
  ((forall i, 0 <= seq i < 1) ->
   (v = DynamicRes -> 16 <= W /\ 16 <= H) ->
   entered v st).
Proof.
  cbn zeta. rewrite boot_eq.
  cbn [current stateEl trace keys input down mouse accumulator timing last
       rand_pos rng score gs coins player box].
  do 11 (split; [destruct v; reflexivity|]).
  intros Hseq Hdim. unfold entered.
  cbn [gs player coins score box Rect.x Rect.y].
  split; [destruct v; reflexivity|]. split; [destruct v; reflexivity|].
  split; [apply fresh_coins_length|]. split; [|reflexivity].
  assert (Hd : 16 <= match v with FixedRes => BASE_WIDTH | DynamicRes => W end /\
               16 <= match v with FixedRes => BASE_HEIGHT | DynamicRes => H end).
  { destruct v; [unfold BASE_WIDTH, BASE_HEIGHT; lra | apply Hdim; reflexivity]. }
  eapply Forall_impl; [|apply (fresh_coins_within _ _ seq Hseq (proj1 Hd) (proj2 Hd))].
  intros c (Hx & Hy & Hw & Hh). unfold within_world. rewrite Hw, Hh.
  destruct v; cbn [worldWidth worldHeight WIDTH HEIGHT]; lra.
Qed.

(** ** What [draw] shows *)

Lemma grid_positions_stop fuel limit x :
  limit <= x -> grid_positions fuel limit x = Some [].
Proof.
  intros H. apply Rltb_false_iff in H. destruct fuel; cbn; rewrite H; reflexivity.
Qed.

Lemma grid_positions_run n : forall fuel limit x,
  x + 32 * INR n - 32 < limit <= x + 32 * INR n ->
  (n <= fuel)%nat ->
  grid_positions fuel limit x =
  Some (map (fun i => x + 32 * INR i) (seq 0 n)).
Proof.
  induction n as [|n IH]; intros fuel limit x Hlim Hfuel.
  - cbn [INR] in Hlim. rewrite grid_positions_stop by lra. reflexivity.
  - rewrite S_INR in Hlim. pose proof (pos_INR n) as Hn.
    destruct fuel as [|fuel]; [lia|].
    cbn [grid_positions].
    rewrite (proj2 (Rltb_true_iff x limit)) by lra.
    rewrite (IH fuel limit (x + 32)) by (try lia; lra).
    cbn [seq map INR]. f_equal. f_equal; [lra|].
    rewrite <- seq_shift, map_map. apply map_ext.
    intros i. rewrite S_INR. lra.
Qed.

(** The grid loops of [draw] make one line every 32 units from 0 up to, not
    including, the size of the world: [ceil (limit / 32)] lines, each inside
    the world, and none at all in a world of size 0 or less. *)
Theorem grid_lines_every_32 (limit : R) :
  (limit <= 0 -> forall fuel, grid_positions fuel limit 0 = Some []) /\
  (0 < limit ->
   exists n : nat,
     32 * (INR n - 1) < limit <= 32 * INR n /\
     forall fuel, (n <= fuel)%nat ->
       grid_positions fuel limit 0 = Some (map (fun i => 32 * INR i) (seq 0 n)) /\
       Forall (fun x => 0 <= x < limit) (map (fun i => 32 * INR i) (seq 0 n))).
Proof.
  split.
  - intros H fuel. apply grid_positions_stop. exact H.
  - intros Hpos.
    set (q := limit / 32).
    assert (Hq : limit = 32 * q) by (unfold q; field).
    pose proof (Zfloor_bound (- q)) as [Hlo Hhi].
    set (z := (- Zfloor (- q))%Z).
    assert (Hz : IZR z - 1 < q <= IZR z) by (unfold z; rewrite opp_IZR; lra).
    assert (Hz0 : (0 < z)%Z).
    { apply lt_IZR. lra. }
    exists (Z.to_nat z).
    assert (Hn : INR (Z.to_nat z) = IZR z)
      by (rewrite INR_IZR_INZ, Z2Nat.id by lia; reflexivity).
    rewrite Hn. split; [lra|].
    intros fuel Hfuel. split.
    + rewrite (grid_positions_run (Z.to_nat z)) by (try exact Hfuel; rewrite Hn; lra).
      f_equal. apply map_ext. intro i. lra.
    + apply Forall_forall. intros x Hin. apply in_map_iff in Hin.
      destruct Hin as (i & <- & Hi). apply in_seq in Hi.
      pose proof (pos_INR i) as Hi0.
      assert (Hi1 : INR i <= INR (Z.to_nat z) - 1).
      { replace (INR (Z.to_nat z) - 1) with (INR (Z.to_nat z - 1)).
        - apply le_INR. lia.
        - rewrite minus_INR by lia. cbn. lra. }
      rewrite Hn in Hi1. lra.
Qed.
